(** * KinomeMETA / Reptile / meta.py : the two-level meta-learning loop

    A shallow embedding of [Learner] and [MetaLearner] of
    [src/KinomeMETA/Reptile/meta.py].

    The two classes are stateful PyTorch code: parameter objects are shared
    between a network and the optimizer that was built on it, [.data] of a
    parameter is re-pointed by [update_pi], optimizers write tensors in place
    and gradient hooks are registered on and removed from parameter objects.
    The embedding therefore keeps an explicit object store ([World]): tensor
    storages, parameter objects (with their [.data] pointer, [.grad] and hook
    table), the two module lists of the learner and the two optimizers.  Code
    runs in a state-and-exception monad in which a raised exception keeps the
    store as it was at the raise, as in Python.

    What lies outside the file (tensor arithmetic, the network class, its
    derivative, the metric functions, numpy's mean, Adam's update formula) is
    the interface [Torch]. *)

From Stdlib Require Import QArith.
From stdpp Require Import base option list gmap.

Set Default Proof Using "Type".
Local Open Scope nat_scope.

(** ** Python exceptions and results *)

Inductive exn := IndexError | TypeError | AttributeError | RuntimeError.

Inductive result (A : Type) :=
| Ok (a : A)
| Raise (e : exn).
Arguments Ok {A} a.
Arguments Raise {A} e.

(** [l[i]] for a non-negative index. *)
Definition subscript {A} (l : list A) (i : nat) : result A :=
  match l !! i with
  | Some a => Ok a
  | None => Raise IndexError
  end.

(** [range(n)] for a Python int [n]: empty when [n <= 0]. *)
Definition range (n : Z) : list nat := seq 0 (Z.to_nat n).

(** [enumerate(l)] *)
Definition enumerate {A} (l : list A) : list (nat * A) := imap (λ i a, (i, a)) l.

(** ** The interface to PyTorch, the network class, the metrics and numpy *)

(** The six positional arguments of a call of the network:
    [(x_atom, x_bond, x_atom_index, x_bond_index, x_mask, y)]. *)
Record Args (Data : Type) := mkArgs {
  a_atom : Data;
  a_bond : Data;
  a_atom_index : Data;
  a_bond_index : Data;
  a_mask : Data;
  a_y : Data
}.
Arguments mkArgs {Data}.
Arguments a_atom {Data}.
Arguments a_bond {Data}.
Arguments a_atom_index {Data}.
Arguments a_bond_index {Data}.
Arguments a_mask {Data}.
Arguments a_y {Data}.

Class Torch := {
  (** values of parameter, gradient and loss tensors *)
  Tensor : Type;
  (** one episode's slice of an input or label tensor *)
  Data : Type;
  (** the prediction tensor of the network, and what [softmax(...)[:, 1]] makes of it *)
  Pred : Type;
  Probs : Type;
  (** Python floats returned by the metric functions *)
  Scalar : Type;
  tensor_inhabited :: Inhabited Tensor;
  (** [torch.add(a, b)] *)
  torch_add : Tensor → Tensor → Tensor;
  (** [p.add_(g, alpha=a)], the whole of a plain SGD update *)
  add_alpha : Tensor → Tensor → Q → Tensor;
  (** [torch.zeros_like] *)
  zeros_like : Tensor → Tensor;
  (** Adam's arithmetic for one parameter:
      [adam_math lr step p g exp_avg exp_avg_sq = (p', exp_avg', exp_avg_sq')],
      [step] being the already incremented step count. *)
  adam_math : Q → nat → Tensor → Tensor → Tensor → Tensor → Tensor * Tensor * Tensor;
  (** [x.to(torch.float32)] on one slice *)
  to_float32 : Data → Data;
  (** [net_cls.forward]: loss and prediction as functions of the parameter
      values (in [parameters()] order) and the arguments *)
  net_loss : list Tensor → Args Data → Tensor;
  net_pred : list Tensor → Args Data → Pred;
  (** the derivative of the loss with respect to the parameter at a position *)
  net_grad : list Tensor → Args Data → nat → Tensor;
  (** [F.softmax(pred, dim=-1).data.cpu().numpy()[:, 1]] *)
  softmax_pos : Pred → Probs;
  (** [utils.metrics] *)
  accuracy : Data → Probs → Scalar;
  precision : Data → Probs → Scalar;
  recall : Data → Probs → Scalar;
  mcc : Data → Probs → Scalar;
  roc : Data → Probs → Scalar;
  f1 : Data → Probs → Scalar;
  (** [np.array(l).mean()] *)
  np_mean : list Scalar → Scalar
}.

(** ** The object store *)

(** Identities of tensor storages and of [nn.Parameter] objects. *)
Definition loc := nat.
Definition pid := nat.

(** A gradient hook: called with the gradient, returns its replacement. *)
Definition Hook `{Torch} : Type := Tensor → result Tensor.

(** An [nn.Parameter] object: where its [.data] lives, its [.grad], and its
    hook table (handle id, hook) in registration order. *)
Record ParamObj `{Torch} := mkParam {
  p_data : loc;
  p_grad : option Tensor;
  p_hooks : list (nat * Hook)
}.

Global Instance ParamObj_inhabited `{Torch} : Inhabited ParamObj :=
  populate (mkParam _ 0 None []).

(** The layer classes [update_pi] tells apart. *)
Inductive Kind := Linear | Conv2d | BatchNorm2d | Other.

(** One entry of [net.modules()]: its class and its [weight] and [bias]
    attributes ([None] when the attribute is [None] or absent). *)
Record Module := mkModule {
  kind : Kind;
  weight : option pid;
  bias : option pid
}.

(** Adam's per-parameter state [state[p]]. *)
Record AdamSt `{Torch} := mkAdamSt {
  step : nat;
  exp_avg : Tensor;
  exp_avg_sq : Tensor
}.

(** A loss tensor attached to a graph: its value and, for each leaf
    parameter of the graph, the gradient backpropagation computes for it. *)
Record Loss `{Torch} := mkLoss {
  loss_value : Tensor;
  graph : list (pid * Tensor)
}.

(** Everything a [MetaLearner] object reaches. *)
Record World `{Torch} := mkWorld {
  heap : list Tensor;                (* tensor storages *)
  params : list ParamObj;            (* parameter objects *)
  next_hook : nat;                   (* next handle id *)
  net : list Module;                 (* learner.net.modules() *)
  net_pi : list Module;              (* learner.net_pi.modules() *)
  sgd_params : list pid;             (* learner.optimizer.param_groups *)
  adam_params : list pid;            (* optimizer.param_groups *)
  adam_state : gmap pid AdamSt;      (* optimizer.state *)
  meta_lr : Q;
  num_updates : Z
}.

Section Model.
Context `{T : Torch}.

Definition set_heap (f : list Tensor → list Tensor) (w : World) : World :=
  mkWorld _ (f (heap w)) (params w) (next_hook w) (net w) (net_pi w)
    (sgd_params w) (adam_params w) (adam_state w) (meta_lr w) (num_updates w).

Definition set_params (f : list ParamObj → list ParamObj) (w : World) : World :=
  mkWorld _ (heap w) (f (params w)) (next_hook w) (net w) (net_pi w)
    (sgd_params w) (adam_params w) (adam_state w) (meta_lr w) (num_updates w).

Definition set_next_hook (n : nat) (w : World) : World :=
  mkWorld _ (heap w) (params w) n (net w) (net_pi w)
    (sgd_params w) (adam_params w) (adam_state w) (meta_lr w) (num_updates w).

Definition set_adam_state (f : gmap pid AdamSt → gmap pid AdamSt) (w : World) : World :=
  mkWorld _ (heap w) (params w) (next_hook w) (net w) (net_pi w)
    (sgd_params w) (adam_params w) (f (adam_state w)) (meta_lr w) (num_updates w).

(** [p.data] as a value, [p.grad] and the hooks of a parameter object. *)
Definition storage (w : World) (p : pid) : loc := p_data (params w !!! p).
Definition data_of (w : World) (p : pid) : Tensor := heap w !!! storage w p.
Definition grad_of (w : World) (p : pid) : option Tensor := p_grad (params w !!! p).
Definition hooks_of (w : World) (p : pid) : list (nat * Hook) := p_hooks (params w !!! p).

(** ** The monad: state, and exceptions that keep the state *)

Definition M (A : Type) : Type := World → World * result A.

Definition ret {A} (a : A) : M A := λ w, (w, Ok a).
Definition raise {A} (e : exn) : M A := λ w, (w, Raise e).
Definition bind {A B} (m : M A) (k : A → M B) : M B :=
  λ w, match m w with
       | (w', Ok a) => k a w'
       | (w', Raise e) => (w', Raise e)
       end.
Definition get : M World := λ w, (w, Ok w).
Definition modify (f : World → World) : M unit := λ w, (f w, Ok tt).
Definition lift {A} (r : result A) : M A := λ w, (w, r).

End Model.

Declare Scope py_scope.
Delimit Scope py_scope with py.
Notation "x ← m ; k" := (bind m (λ x, k))
  (at level 20, m at level 100, k at level 200, only parsing) : py_scope.
Notation "' x ← m ; k" := (bind m (λ x, k))
  (at level 20, x pattern, m at level 100, k at level 200, only parsing) : py_scope.
Notation "m ;; k" := (bind m (λ _, k))
  (at level 100, k at level 200, right associativity) : py_scope.
Local Open Scope py_scope.

Section Program.
Context `{T : Torch}.

(** ** Loops *)

(** [for a in l: f(a)] *)
Fixpoint forM_ {A} (f : A → M unit) (l : list A) : M unit :=
  match l with
  | [] => ret tt
  | a :: l => f a;; forM_ f l
  end.

(** [[f(a) for a in l]] *)
Fixpoint mapM {A B} (f : A → M B) (l : list A) : M (list B) :=
  match l with
  | [] => ret []
  | a :: l => b ← f a; bs ← mapM f l; ret (b :: bs)
  end.

(** [for a in l: s = f(s, a)] *)
Fixpoint foldM {A S} (f : S → A → M S) (s : S) (l : list A) : M S :=
  match l with
  | [] => ret s
  | a :: l => s' ← f s a; foldM f s' l
  end.

(** ** Tensor and parameter primitives *)

(** [t.clone()]: a fresh storage holding the value [v]. *)
Definition clone (v : Tensor) : M loc :=
  λ w, (set_heap (λ h, h ++ [v]) w, Ok (length (heap w))).

(** [p.data = t], [t] living at [l]: the parameter object stays, its
    storage pointer changes. *)
Definition set_data (p : pid) (l : loc) : M unit :=
  modify (set_params (alter (λ o, mkParam _ l (p_grad o) (p_hooks o)) p)).

(** An in-place write of [v] into the storage of [p]. *)
Definition write_data (p : pid) (v : Tensor) : M unit :=
  modify (λ w, set_heap (<[storage w p := v]>) w).

(** [p.grad = g] *)
Definition set_grad (p : pid) (g : option Tensor) : M unit :=
  modify (set_params (alter (λ o, mkParam _ (p_data o) g (p_hooks o)) p)).

(** [o.attr] used as an object: [AttributeError] on [None]. *)
Definition attr {A} (o : option A) : M A :=
  match o with
  | Some a => ret a
  | None => raise AttributeError
  end.

(** [h = p.register_hook(f)]: the handle is the parameter and a fresh id. *)
Definition register_hook (p : pid) (f : Hook) : M (pid * nat) :=
  w ← get;
  let id := next_hook w in
  modify (set_next_hook (S id));;
  modify (set_params (alter (λ o, mkParam _ (p_data o) (p_grad o) (p_hooks o ++ [(id, f)])) p));;
  ret (p, id).

(** [h.remove()] *)
Definition remove_hook (h : pid * nat) : M unit :=
  modify (set_params (alter (λ o, mkParam _ (p_data o) (p_grad o)
                                    (filter (λ e, e.1 ≠ h.2) (p_hooks o))) h.1)).

(** ** Modules and autograd *)

Definition module_parameters (m : Module) : list pid :=
  option_list (weight m) ++ option_list (bias m).

(** [net.parameters()] from [net.modules()] *)
Definition parameters (ms : list Module) : list pid :=
  ms ≫= module_parameters.

(** [loss, pred, _ = net(x_atom, ..., y)]: the loss is attached to the parameters of the
    network that computed it, at their values at the time of the call. *)
Definition call_net (ms : list Module) (a : Args Data) : M (Loss * Pred) :=
  w ← get;
  let ps := parameters ms in
  let theta := data_of w <$> ps in
  ret (mkLoss _ (net_loss theta a) (imap (λ i p, (p, net_grad theta a i)) ps),
       net_pred theta a).

(** The hooks of a tensor run in registration order, each on the result of
    the one before. *)
Fixpoint run_hooks (hs : list (nat * Hook)) (g : Tensor) : result Tensor :=
  match hs with
  | [] => Ok g
  | (_, h) :: hs =>
      match h g with
      | Ok g' => run_hooks hs g'
      | Raise e => Raise e
      end
  end.

(** Accumulation of a gradient into [p.grad]. *)
Definition accumulate_grad (p : pid) (g : Tensor) : M unit :=
  w ← get;
  set_grad p (Some (match grad_of w p with
                    | None => g
                    | Some g0 => torch_add g0 g
                    end)).

(** [loss.backward()]: every leaf gets its gradient through its hooks. *)
Definition backward (l : Loss) : M unit :=
  forM_ (λ '(p, g), w ← get;
                    g' ← lift (run_hooks (hooks_of w p) g);
                    accumulate_grad p g') (graph l).

(** [autograd.grad(loss, inputs, create_graph=True)]: one gradient per
    input; an input that is no leaf of the graph is an error. *)
Definition autograd_grad (l : Loss) (inputs : list pid) : M (list Tensor) :=
  mapM (λ p, match list_find (λ e : pid * Tensor, e.1 = p) (graph l) with
             | Some (_, (_, g)) => ret g
             | None => raise RuntimeError
             end) inputs.

(** ** Optimizers *)

(** [optimizer.zero_grad()] (gradients are set to [None]) *)
Definition zero_grad (ps : list pid) : M unit :=
  forM_ (λ p, set_grad p None) ps.

(** [optim.SGD(params, lr).step()] with the defaults: no momentum, no
    weight decay, no Nesterov. *)
Definition SGD_step (lr : Q) (ps : list pid) : M unit :=
  forM_ (λ p, w ← get;
              match grad_of w p with
              | None => ret tt
              | Some g => write_data p (add_alpha (data_of w p) g (- lr))
              end) ps.

(** [optim.Adam(params, lr).step()] *)
Definition Adam_param_step (p : pid) : M unit :=
  w ← get;
  match grad_of w p with
  | None => ret tt
  | Some g =>
      let st := default (mkAdamSt _ 0 (zeros_like (data_of w p)) (zeros_like (data_of w p)))
                        (adam_state w !! p) in
      let '(p', m', v') :=
        adam_math (meta_lr w) (S (step st)) (data_of w p) g (exp_avg st) (exp_avg_sq st) in
      write_data p p';;
      modify (set_adam_state (<[p := mkAdamSt _ (S (step st)) m' v']>))
  end.

Definition Adam_step : M unit :=
  w ← get; forM_ Adam_param_step (adam_params w).

(** ** class Learner *)

(** The learning rate of [self.optimizer = optim.SGD(self.net_pi.parameters(), 0.001)] *)
Definition learner_lr : Q := 1 # 1000.

(** [Learner.parameters] *)
Definition Learner_parameters : M (list pid) :=
  w ← get; ret (parameters (net w)).

Definition is_copied (k : Kind) : bool :=
  match k with
  | Linear | Conv2d | BatchNorm2d => true
  | Other => false
  end.

(** The body of the loop of [update_pi] for one pair [(m_from, m_to)]. *)
Definition update_layer (mm : Module * Module) : M unit :=
  let '(m_from, m_to) := mm in
  if is_copied (kind m_to) then
    pf ← attr (weight m_from);
    w ← get;
    l ← clone (data_of w pf);
    pt ← attr (weight m_to);
    set_data pt l;;
    match bias m_to with
    | Some bt =>
        bf ← attr (bias m_from);
        w ← get;
        l ← clone (data_of w bf);
        set_data bt l
    | None => ret tt
    end
  else ret tt.

(** [Learner.update_pi] *)
Definition update_pi : M unit :=
  w ← get; forM_ update_layer (zip (net w) (net_pi w)).

(** The tuple [(acc, pre_score, recall_score, mcc_score, roc_score, f1_score)];
    [episode_scores[4]] is [roc_score]. *)
Record Scores := mkScores {
  acc : Scalar;
  pre_score : Scalar;
  recall_score : Scalar;
  mcc_score : Scalar;
  roc_score : Scalar;
  f1_score : Scalar
}.

(** One pass of the loop [for i in range(num_updates)] of [Learner.forward]. *)
Definition inner_update (support : Args Data) : M unit :=
  w ← get;
  '(loss, _) ← call_net (net_pi w) support;
  zero_grad (sgd_params w);;
  backward loss;;
  SGD_step learner_lr (sgd_params w).

(** [Learner.forward] *)
Definition Learner_forward (support query : Args Data) (n : Z)
  : M (Loss * list Tensor * Scores) :=
  update_pi;;
  forM_ (λ _, inner_update support) (range n);;
  w ← get;
  '(loss, pred) ← call_net (net_pi w) query;
  let pred_ := softmax_pos pred in
  let query_y_ := a_y query in
  let sc := mkScores (accuracy query_y_ pred_) (precision query_y_ pred_)
                     (recall query_y_ pred_) (mcc query_y_ pred_)
                     (roc query_y_ pred_) (f1 query_y_ pred_) in
  grads_pi ← autograd_grad loss (parameters (net_pi w));
  ret (loss, grads_pi, sc).

(** [Learner.net_forward] *)
Definition net_forward (support : Args Data) : M (Loss * Pred) :=
  w ← get; call_net (net w) support.

(** ** class MetaLearner *)

(** The hook [closure()] returns at index [ii]: [lambda grad: sum_grads_pi[ii]].
    [sum_grads_pi] may still be [None]. *)
Definition closure (sum_grads_pi : option (list Tensor)) (ii : nat) : Hook :=
  λ _grad, match sum_grads_pi with
           | None => Raise TypeError
           | Some l => subscript l ii
           end.

(** [MetaLearner.write_grads] *)
Definition write_grads (dummy_loss : Loss) (sum_grads_pi : option (list Tensor)) : M unit :=
  ps ← Learner_parameters;
  hooks ← mapM (λ '(i, v), register_hook v (closure sum_grads_pi i)) (enumerate ps);
  w ← get;
  zero_grad (adam_params w);;
  backward dummy_loss;;
  Adam_step;;
  forM_ remove_hook hooks.

(** The 5-tuple [support_x] (or [query_x]) of batched tensors; a batched
    tensor is the list of its slices along the leading dimension. *)
Record Inputs := mkInputs {
  x_atom : list Data;
  x_bond : list Data;
  x_atom_index : list Data;
  x_bond_index : list Data;
  x_mask : list Data
}.

(** The three [.to(torch.float32)] of [forward] and [pred]. *)
Definition cast_inputs (x : Inputs) : Inputs :=
  mkInputs (to_float32 <$> x_atom x) (to_float32 <$> x_bond x)
           (x_atom_index x) (x_bond_index x) (to_float32 <$> x_mask x).

(** [x_atom[i], x_bond[i], x_atom_index[i], x_bond_index[i], x_mask[i], y[i]] *)
Definition slice (x : Inputs) (y : list Data) (i : nat) : M (Args Data) :=
  a ← lift (subscript (x_atom x) i);
  b ← lift (subscript (x_bond x) i);
  ai ← lift (subscript (x_atom_index x) i);
  bi ← lift (subscript (x_bond_index x) i);
  m ← lift (subscript (x_mask x) i);
  l ← lift (subscript y i);
  ret (mkArgs a b ai bi m l).

(** The accumulation of lines 225-228. *)
Definition accumulate (sum_grads_pi : option (list Tensor)) (grad_pi : list Tensor)
  : option (list Tensor) :=
  match sum_grads_pi with
  | None => Some grad_pi
  | Some s => Some (zip_with torch_add s grad_pi)
  end.

(** One pass of the episode loop of [MetaLearner.forward]. *)
Definition train_episode (sx : Inputs) (sy : list Data) (qx : Inputs) (qy : list Data)
    (st : option (list Tensor) * list Scalar * list Loss) (i : nat)
  : M (option (list Tensor) * list Scalar * list Loss) :=
  let '(sum_grads_pi, rocs, losses) := st in
  s ← slice sx sy i;
  q ← slice qx qy i;
  w ← get;
  '(loss, grad_pi, episode_scores) ← Learner_forward s q (num_updates w);
  ret (accumulate sum_grads_pi grad_pi, rocs ++ [roc_score episode_scores], losses ++ [loss]).

(** [MetaLearner.forward] *)
Definition MetaLearner_forward (support_x : Inputs) (support_y : list Data)
    (query_x : Inputs) (query_y : list Data) : M (list Loss * list Scalar) :=
  let meta_batchsz := length support_y in
  let sx := cast_inputs support_x in
  let qx := cast_inputs query_x in
  '(sum_grads_pi, rocs, losses) ←
    foldM (train_episode sx support_y qx query_y) (None, [], []) (seq 0 meta_batchsz);
  s0 ← slice sx support_y 0;
  '(dummy_loss, _) ← net_forward s0;
  write_grads dummy_loss sum_grads_pi;;
  ret (losses, rocs).

(** The lists [pred] appends to, in the order of lines 252-258. *)
Record EvalAcc := mkEvalAcc {
  accs : list Scalar;
  ev_losses : list Loss;
  pre_scores : list Scalar;
  recall_scores : list Scalar;
  mcc_scores : list Scalar;
  roc_scores : list Scalar;
  f1_scores : list Scalar
}.

(** One pass of the episode loop of [MetaLearner.pred]. *)
Definition eval_episode (sx : Inputs) (sy : list Data) (qx : Inputs) (qy : list Data)
    (st : EvalAcc) (i : nat) : M EvalAcc :=
  s ← slice sx sy i;
  q ← slice qx qy i;
  w ← get;
  '(loss, _, sc) ← Learner_forward s q (num_updates w);
  ret (mkEvalAcc (accs st ++ [acc sc]) (ev_losses st ++ [loss])
                 (pre_scores st ++ [pre_score sc]) (recall_scores st ++ [recall_score sc])
                 (mcc_scores st ++ [mcc_score sc]) (roc_scores st ++ [roc_score sc])
                 (f1_scores st ++ [f1_score sc])).

(** [MetaLearner.pred] *)
Definition MetaLearner_pred (support_x : Inputs) (support_y : list Data)
    (query_x : Inputs) (query_y : list Data)
  : M (list Loss * Scalar * Scalar * Scalar * Scalar * Scalar * Scalar) :=
  let meta_batchsz := length support_y in
  let sx := cast_inputs support_x in
  let qx := cast_inputs query_x in
  st ← foldM (eval_episode sx support_y qx query_y)
             (mkEvalAcc [] [] [] [] [] [] []) (seq 0 meta_batchsz);
  ret (ev_losses st, np_mean (accs st), np_mean (pre_scores st), np_mean (recall_scores st),
       np_mean (mcc_scores st), np_mean (roc_scores st), np_mean (f1_scores st)).

End Program.

(** ** Construction *)

Section Init.
Context `{T : Torch}.

(** What [net_cls] builds for one module: its class and whether it has a
    [weight] and a [bias]. *)
Record LayerSpec := mkLayer {
  ls_kind : Kind;
  ls_weight : bool;
  ls_bias : bool
}.

(** A new [nn.Parameter] on a fresh storage; [init] stands for the random
    initialiser, applied to the identity of the storage. *)
Definition new_param (init : nat → Tensor) : M pid :=
  λ w, (set_params (λ ps, ps ++ [mkParam _ (length (heap w)) None []])
          (set_heap (λ h, h ++ [init (length (heap w))]) w),
        Ok (length (params w))).

Definition new_attr (init : nat → Tensor) (b : bool) : M (option pid) :=
  if b then p ← new_param init; ret (Some p) else ret None.

Definition new_module (init : nat → Tensor) (s : LayerSpec) : M Module :=
  wt ← new_attr init (ls_weight s);
  bs ← new_attr init (ls_bias s);
  ret (mkModule (ls_kind s) wt bs).

(** [net_cls(args...)]: the modules of a new network. *)
Definition net_cls (init : nat → Tensor) (arch : list LayerSpec) : M (list Module) :=
  mapM (new_module init) arch.

Definition empty_world (lr : Q) (n : Z) : World :=
  mkWorld _ [] [] 0 [] [] [] [] ∅ lr n.

(** [MetaLearner.__init__] with [Learner.__init__] inside: two networks of
    the same class, SGD on the parameters of [net_pi], Adam on what
    [Learner.parameters] returns. *)
Definition MetaLearner_init (init : nat → Tensor) (arch : list LayerSpec)
    (lr : Q) (n : Z) : World :=
  let '(w1, r1) := net_cls init arch (empty_world lr n) in
  let '(w2, r2) := net_cls init arch w1 in
  match r1, r2 with
  | Ok net0, Ok net_pi0 =>
      mkWorld _ (heap w2) (params w2) (next_hook w2) net0 net_pi0
        (parameters net_pi0) (parameters net0) ∅ lr n
  | _, _ => w2
  end.

End Init.

(** ** Well-formed learners *)

Global Instance Kind_eq_dec : EqDecision Kind.
Proof. solve_decision. Defined.

Section Wf.
Context `{T : Torch}.

Definition all_params (w : World) : list pid :=
  parameters (net w) ++ parameters (net_pi w).

(** Modules [m_from] and [m_to] come from the same place of the same
    architecture, and a module of a copied class has a weight. *)
Definition same_shape (m_from m_to : Module) : Prop :=
  kind m_from = kind m_to
  ∧ (is_Some (weight m_to) ↔ is_Some (weight m_from))
  ∧ (is_Some (bias m_to) ↔ is_Some (bias m_from))
  ∧ (is_copied (kind m_to) = true → is_Some (weight m_to)).

(** The state [MetaLearner.__init__] establishes and every method keeps:
    the two networks have the same architecture, their parameter objects and
    storages exist and are pairwise distinct, each optimizer holds the
    parameters it was built on, and no hook is registered. *)
Definition wf (w : World) : Prop :=
  Forall2 same_shape (net w) (net_pi w)
  ∧ Forall (λ p, p < length (params w)) (all_params w)
  ∧ NoDup (all_params w)
  ∧ Forall (λ p, storage w p < length (heap w)) (all_params w)
  ∧ NoDup (storage w <$> all_params w)
  ∧ sgd_params w = parameters (net_pi w)
  ∧ adam_params w = parameters (net w)
  ∧ Forall (λ p, length (hooks_of w p) = 0) (all_params w).

Global Instance same_shape_dec mf mt : Decision (same_shape mf mt).
Proof. unfold same_shape. apply _. Defined.

Global Instance wf_dec w : Decision (wf w).
Proof. unfold wf. apply _. Defined.

(** The values of a list of parameters, as the network reads them. *)
Definition values (w : World) (ps : list pid) : list Tensor := data_of w <$> ps.

(** One plain SGD update of a whole parameter vector on the loss of [a]. *)
Definition sgd_pure (a : Args Data) (theta : list Tensor) : list Tensor :=
  imap (λ i p, add_alpha p (net_grad theta a i) (- learner_lr)) theta.

(** The gradient vector of the loss of [a] at [theta]. *)
Definition grad_vector (a : Args Data) (theta : list Tensor) : list Tensor :=
  imap (λ i _, net_grad theta a i) theta.

(** A batch as [forward] and [pred] index it: each of the ten batched
    tensors has a slice for every [i < len(support_y)]. *)
Definition shaped (sx : Inputs) (sy : list Data) (qx : Inputs) (qy : list Data) : Prop :=
  let k := length sy in
  k ≤ length (x_atom sx) ∧ k ≤ length (x_bond sx) ∧ k ≤ length (x_atom_index sx)
  ∧ k ≤ length (x_bond_index sx) ∧ k ≤ length (x_mask sx)
  ∧ k ≤ length (x_atom qx) ∧ k ≤ length (x_bond qx) ∧ k ≤ length (x_atom_index qx)
  ∧ k ≤ length (x_bond_index qx) ∧ k ≤ length (x_mask qx) ∧ k ≤ length qy.

End Wf.

(** ** A small concrete backend

    Tensors are rationals; the network is a toy with as many scalar
    parameters as its architecture creates.  Used to run the definitions. *)

Global Instance Q_inhabited : Inhabited Q := populate 0%Q.

Definition Qsum (l : list Q) : Q := foldr Qplus 0%Q l.

Global Instance QTorch : Torch := {|
  Tensor := Q;
  Data := Q;
  Pred := Q;
  Probs := Q;
  Scalar := Q;
  tensor_inhabited := Q_inhabited;
  torch_add := λ a b, Qred (a + b);
  add_alpha := λ p g a, Qred (p + a * g);
  zeros_like := λ _, 0%Q;
  adam_math := λ lr t p g m v,
    (Qred (p - lr * g), Qred (m + g), Qred (v + g * g));
  to_float32 := λ d, d;
  net_loss := λ theta a, Qred (Qsum theta * a_atom a + a_y a);
  net_pred := λ theta a, Qred (Qsum theta * a_atom a);
  net_grad := λ theta a i, Qred (a_atom a + inject_Z (Z.of_nat i) + theta !!! i);
  softmax_pos := λ p, p;
  accuracy := λ y p, Qred (y + p);
  precision := λ y p, Qred (y - p);
  recall := λ y p, Qred (y * p);
  mcc := λ y p, y;
  roc := λ y p, p;
  f1 := λ y p, Qred (y + y);
  np_mean := λ l, Qred (Qsum l / inject_Z (Z.of_nat (length l)))
|}.

Definition demo_arch : list LayerSpec :=
  [mkLayer Other false false; mkLayer Linear true true; mkLayer Other true false].

Definition demo_world : World :=
  MetaLearner_init (λ l, inject_Z (Z.of_nat l)) demo_arch (1 # 100) 2.

Definition demo_x : Inputs := mkInputs [1; 2]%Q [0; 0]%Q [0; 0]%Q [0; 0]%Q [1; 1]%Q.
Definition demo_y : list Data := [1; 0]%Q.

Definition demo_args : Args Data := mkArgs 1%Q 0%Q 0%Q 0%Q 1%Q 1%Q.

(** A network whose parameters all belong to copied classes. *)
Definition demo_linear_arch : list LayerSpec :=
  [mkLayer Other false false; mkLayer Linear true true; mkLayer Conv2d true false].

Definition demo_linear_world : World :=
  MetaLearner_init (λ l, inject_Z (Z.of_nat l)) demo_linear_arch (1 # 100) 2.



Definition demo_args' : Args Data := mkArgs 2%Q 0%Q 0%Q 0%Q 1%Q 0%Q.

(** The dummy loss [net_forward] computes on [demo_args]. *)
Definition demo_dummy : Loss :=
  match (net_forward demo_args demo_world).2 with
  | Ok (l, _) => l
  | Raise _ => mkLoss _ 0%Q []
  end.


(** * Specification vocabulary *)

Section Specs.
Context `{T : Torch}.

(** The gradient [p.grad] holds after a gradient [g] has been accumulated. *)
Definition accumulated (old : option Tensor) (g : Tensor) : Tensor :=
  match old with
  | None => g
  | Some g0 => torch_add g0 g
  end.

(** What a plain SGD step leaves in the storage of [p]. *)
Definition sgd_value (lr : Q) (w : World) (p : pid) : Tensor :=
  match grad_of w p with
  | Some g => add_alpha (data_of w p) g (- lr)
  | None => data_of w p
  end.

(** What one Adam step makes of parameter [p] with gradient [g]: its new
    value and its new optimizer state. *)
Definition adam_result (w : World) (p : pid) (g : Tensor) : Tensor * AdamSt :=
  let st := default (mkAdamSt _ 0 (zeros_like (data_of w p)) (zeros_like (data_of w p)))
                    (adam_state w !! p) in
  let r := adam_math (meta_lr w) (S (step st)) (data_of w p) g (exp_avg st) (exp_avg_sq st) in
  (r.1.1, mkAdamSt _ (S (step st)) r.1.2 r.2).

Definition adam_world (w : World) (p : pid) : World :=
  match grad_of w p with
  | Some g =>
      set_adam_state (<[p := (adam_result w p g).2]>)
        (set_heap (<[storage w p := (adam_result w p g).1]>) w)
  | None => w
  end.

Definition hooked (id : nat) (f : Hook) (o : ParamObj) : ParamObj :=
  mkParam _ (p_data o) (p_grad o) (p_hooks o ++ [(id, f)]).

Definition unhooked (id : nat) (o : ParamObj) : ParamObj :=
  mkParam _ (p_data o) (p_grad o) (filter (λ e, e.1 ≠ id) (p_hooks o)).

(** The object graph of the learner, without the values: same modules and
    optimizer parameter lists, same parameter objects on the same storages
    with the same hooks, and no storage lost. *)
Definition same_layout (w w' : World) : Prop :=
  net w' = net w ∧ net_pi w' = net_pi w
  ∧ sgd_params w' = sgd_params w ∧ adam_params w' = adam_params w
  ∧ meta_lr w' = meta_lr w ∧ num_updates w' = num_updates w
  ∧ length (params w') = length (params w)
  ∧ length (heap w) ≤ length (heap w')
  ∧ (∀ q, storage w' q = storage w q)
  ∧ (∀ q, hooks_of w' q = hooks_of w q).

(** [d.data = s.data.clone()] as a function on the store. *)
Definition copy_world (w : World) (sd : pid * pid) : World :=
  set_params (alter (λ o, mkParam _ (length (heap w)) (p_grad o) (p_hooks o)) sd.2)
    (set_heap (λ h, h ++ [data_of w sd.1]) w).

(** The copies [update_pi] makes for one pair of modules, as (source,
    destination) parameters. *)
Definition copy_pairs (mm : Module * Module) : list (pid * pid) :=
  if is_copied (kind mm.2) then
    match weight mm.1, weight mm.2 with
    | Some s, Some d => [(s, d)]
    | _, _ => []
    end ++
    match bias mm.1, bias mm.2 with
    | Some s, Some d => [(s, d)]
    | _, _ => []
    end
  else [].

(** The copies of one reset. *)
Definition copies (w : World) : list (pid * pid) :=
  zip (net w) (net_pi w) ≫= copy_pairs.

(** What an episode may change: storages may be added and working
    parameters may move, but the optimizers' books, the hooks, and every
    base parameter object with its value stay. *)
Definition base_frame (w w' : World) : Prop :=
  net w' = net w ∧ net_pi w' = net_pi w
  ∧ sgd_params w' = sgd_params w ∧ adam_params w' = adam_params w
  ∧ adam_state w' = adam_state w ∧ next_hook w' = next_hook w
  ∧ meta_lr w' = meta_lr w ∧ num_updates w' = num_updates w
  ∧ length (params w') = length (params w)
  ∧ (∀ q, hooks_of w' q = hooks_of w q)
  ∧ (∀ p, p ∈ parameters (net w) →
       params w' !!! p = params w !!! p ∧ data_of w' p = data_of w p).

(** The metrics of line 95-100 on the query set, for the parameters [theta]. *)
Definition scores_of (query : Args Data) (theta : list Tensor) : Scores :=
  let pred_ := softmax_pos (net_pred theta query) in
  mkScores (accuracy (a_y query) pred_) (precision (a_y query) pred_)
           (recall (a_y query) pred_) (mcc (a_y query) pred_)
           (roc (a_y query) pred_) (f1 (a_y query) pred_).

(** The working parameters after the reset and [n] passes of the inner
    loop, as values. *)
Definition adapted (support : Args Data) (n : Z) (w : World) : list Tensor :=
  Nat.iter (Z.to_nat n) (sgd_pure support)
    (values (update_pi w).1 (parameters (net_pi w))).

(** [slice] without the store: it only reads its arguments. *)
Definition slice_result (x : Inputs) (y : list Data) (i : nat) : result (Args Data) :=
  match x_atom x !! i, x_bond x !! i, x_atom_index x !! i,
        x_bond_index x !! i, x_mask x !! i, y !! i with
  | Some a, Some b, Some ai, Some bi, Some m, Some l => Ok (mkArgs a b ai bi m l)
  | _, _, _, _, _, _ => Raise IndexError
  end.

(** Both slices of episode [i] exist. *)
Definition sliceable (sx : Inputs) (sy : list Data) (qx : Inputs) (qy : list Data)
    (i : nat) : Prop :=
  ∃ sa qa, slice_result sx sy i = Ok sa ∧ slice_result qx qy i = Ok qa.

(** What the two loops have in common: slicing episode [i] and calling the
    learner on it. *)
Definition episode (sx : Inputs) (sy : list Data) (qx : Inputs) (qy : list Data)
    (i : nat) : M (Loss * list Tensor * Scores) :=
  s ← slice sx sy i;
  q ← slice qx qy i;
  w ← get;
  Learner_forward s q (num_updates w).

(** The episodes of a batch run one after the other: the store they
    leave and what each [Learner.forward] returned. *)
Fixpoint episodes_run (sx : Inputs) (sy : list Data) (qx : Inputs) (qy : list Data)
    (idxs : list nat) (w : World) : World * list (Loss * list Tensor * Scores) :=
  match idxs with
  | [] => (w, [])
  | i :: idxs =>
      match episode sx sy qx qy i w with
      | (w', Ok r) =>
          let '(w'', rs) := episodes_run sx sy qx qy idxs w' in (w'', r :: rs)
      | (w', Raise _) => (w', [])
      end
  end.

(** Position [i] of every vector of a list. *)
Definition column (i : nat) (gs : list (list Tensor)) : list Tensor :=
  (λ g, g !!! i) <$> gs.

(** During construction parameter [i] lives on storage [i], with no
    gradient and no hook. *)
Definition fresh_store (w : World) : Prop :=
  params w = (λ l, mkParam _ l None []) <$> seq 0 (length (heap w)).

(** A module built for a layer description. *)
Definition built (s : LayerSpec) (m : Module) : Prop :=
  kind m = ls_kind s
  ∧ (is_Some (weight m) ↔ ls_weight s = true)
  ∧ (is_Some (bias m) ↔ ls_bias s = true).

(** An architecture [update_pi] can reset: modules of the copied classes
    have a weight. *)
Definition resettable (arch : list LayerSpec) : Prop :=
  Forall (λ s, is_copied (ls_kind s) = true → ls_weight s = true) arch.

(** Every module of the working network that has parameters is of a class
    [update_pi] copies. *)
Definition fully_reset (w : World) : Prop :=
  Forall (λ m, is_copied (kind m) = true ∨ module_parameters m = []) (net_pi w).

(** [num_updates] plain SGD steps on the loss of [support], started from the
    values of the base parameters. *)
Definition base_adapted (support : Args Data) (w : World) : list Tensor :=
  Nat.iter (Z.to_nat (num_updates w)) (sgd_pure support) (values w (parameters (net w))).

(** The (support, query) slices of the episodes [idxs] of a batch. *)
Definition episode_slices (sx : Inputs) (sy : list Data) (qx : Inputs) (qy : list Data)
    (idxs : list nat) : list (Args Data * Args Data) :=
  omap (λ i, match slice_result sx sy i, slice_result qx qy i with
             | Ok sa, Ok qa => Some (sa, qa)
             | _, _ => None
             end) idxs.

End Specs.

(** * Proofs *)

Section Proofs.
Context `{T : Torch}.

Implicit Types (w : World) (p q : pid) (ps : list pid).

(** ** The monad *)

Lemma bind_ok {A B} (m : M A) (k : A → M B) w w1 a :
  m w = (w1, Ok a) → bind m k w = k a w1.
Proof. unfold bind. by intros ->. Qed.

Lemma bind_raise {A B} (m : M A) (k : A → M B) w w1 e :
  m w = (w1, Raise e) → bind m k w = (w1, Raise e).
Proof. unfold bind. by intros ->. Qed.


(** ** Observations on the store *)

Lemma lookup_params_alter_eq f p w :
  p < length (params w) →
  params (set_params (alter f p) w) !!! p = f (params w !!! p).
Proof. intros. simpl. by apply list_lookup_total_alter_eq. Qed.

Lemma lookup_params_alter_ne f p q w :
  p ≠ q → params (set_params (alter f p) w) !!! q = params w !!! q.
Proof. intros. simpl. by apply list_lookup_total_alter_ne. Qed.

Lemma hooks_nil w p : length (hooks_of w p) = 0 → hooks_of w p = [].
Proof. apply nil_length_inv. Qed.

(** ** [zero_grad] *)

Lemma zero_grad_spec ps w :
  ∃ os, zero_grad ps w = (set_params (λ _, os) w, Ok tt)
    ∧ length os = length (params w)
    ∧ (∀ q, p_data (os !!! q) = p_data (params w !!! q)
            ∧ p_hooks (os !!! q) = p_hooks (params w !!! q))
    ∧ (∀ q, q ∈ ps → q < length (params w) → p_grad (os !!! q) = None)
    ∧ (∀ q, q ∉ ps → os !!! q = params w !!! q).
Proof.
  revert w. induction ps as [|p ps IH]; intros w.
  - exists (params w). split_and!; try done.
    + by destruct w.
    + intros q Hq. by apply elem_of_nil in Hq.
  - destruct (IH (set_params (alter (λ o, mkParam _ (p_data o) None (p_hooks o)) p) w))
      as (os & E & Hlen & Hsame & Hin & Hout).
    exists os. split_and!.
    + exact E.
    + rewrite Hlen. simpl. by rewrite length_alter.
    + intros q. destruct (Hsame q) as [-> ->]. simpl.
      rewrite list_lookup_total_alter.
      case_decide as Hd; [destruct Hd as [-> _]|]; done.
    + intros q Hq Hlt. destruct (decide (q ∈ ps)) as [Hin'|Hnin].
      * apply Hin; [done|]. simpl. by rewrite length_alter.
      * rewrite Hout by done. simpl.
        apply elem_of_cons in Hq as [->|?]; [|done].
        by rewrite list_lookup_total_alter_eq.
    + intros q Hq. apply not_elem_of_cons in Hq as [Hne Hnin].
      rewrite Hout by done. simpl. by rewrite list_lookup_total_alter_ne.
Qed.

(** Changing one field of a parameter object leaves the other two. *)

Lemma hooks_of_alter f p q w :
  (∀ o, p_hooks (f o) = p_hooks o) →
  hooks_of (set_params (alter f p) w) q = hooks_of w q.
Proof.
  intros Hf. unfold hooks_of. simpl. rewrite list_lookup_total_alter.
  case_decide as Hd; [destruct Hd as [-> _]; apply Hf|done].
Qed.

Lemma storage_alter f p q w :
  (∀ o, p_data (f o) = p_data o) →
  storage (set_params (alter f p) w) q = storage w q.
Proof.
  intros Hf. unfold storage. simpl. rewrite list_lookup_total_alter.
  case_decide as Hd; [destruct Hd as [-> _]; apply Hf|done].
Qed.

Lemma grad_of_alter f p q w :
  (∀ o, p_grad (f o) = p_grad o) →
  grad_of (set_params (alter f p) w) q = grad_of w q.
Proof.
  intros Hf. unfold grad_of. simpl. rewrite list_lookup_total_alter.
  case_decide as Hd; [destruct Hd as [-> _]; apply Hf|done].
Qed.

Lemma set_params_id w : set_params (λ _, params w) w = w.
Proof. by destruct w. Qed.

Lemma set_heap_id w : set_heap (λ _, heap w) w = w.
Proof. by destruct w. Qed.

(** ** [backward] *)

Lemma backward_cons v p g G w :
  backward (mkLoss _ v ((p, g) :: G)) w =
  match run_hooks (hooks_of w p) g with
  | Ok g' =>
      backward (mkLoss _ v G)
        (set_params (alter (λ o, mkParam _ (p_data o)
                                   (Some (accumulated (grad_of w p) g')) (p_hooks o)) p) w)
  | Raise e => (w, Raise e)
  end.
Proof.
  unfold backward. cbn [graph forM_]. unfold bind at 1. unfold bind at 1.
  unfold get at 1. unfold bind at 1. unfold lift at 1.
  destruct (run_hooks (hooks_of w p) g); reflexivity.
Qed.

Lemma backward_spec v G w :
  ∃ os r, backward (mkLoss _ v G) w = (set_params (λ _, os) w, r)
    ∧ length os = length (params w)
    ∧ (∀ q, p_data (os !!! q) = p_data (params w !!! q)
            ∧ p_hooks (os !!! q) = p_hooks (params w !!! q))
    ∧ (∀ q, q ∉ G.*1 → os !!! q = params w !!! q)
    ∧ ((∀ p g, (p, g) ∈ G → ∃ g', run_hooks (hooks_of w p) g = Ok g') →
       r = Ok tt
       ∧ (NoDup G.*1 → ∀ p g g', (p, g) ∈ G → p < length (params w) →
            run_hooks (hooks_of w p) g = Ok g' →
            p_grad (os !!! p) = Some (accumulated (grad_of w p) g')))
    ∧ (∀ e0, (∃ p g, (p, g) ∈ G ∧ run_hooks (hooks_of w p) g = Raise e0) →
         (∀ p g e, (p, g) ∈ G → run_hooks (hooks_of w p) g = Raise e → e = e0) →
         r = Raise e0).
Proof.
  revert w. induction G as [|[p g] G IH]; intros w.
  - exists (params w), (Ok tt). rewrite set_params_id. split_and!; try done.
    + intros _. split; [done|]. intros _ p g g' Hin. by apply elem_of_nil in Hin.
    + intros e0 (p & g & Hin & _). by apply elem_of_nil in Hin.
  - destruct (run_hooks (hooks_of w p) g) as [g1|e] eqn:Hrun.
    + set (f := λ o : ParamObj,
            mkParam _ (p_data o) (Some (accumulated (grad_of w p) g1)) (p_hooks o)).
      set (w1 := set_params (alter f p) w).
      assert (Hhk : ∀ q, hooks_of w1 q = hooks_of w q)
        by (intros q; by apply hooks_of_alter).
      destruct (IH w1) as (os & r & E & Hlen & Hsame & Hout & Hok & Hraise).
      exists os, r. split_and!.
      * rewrite backward_cons, Hrun. exact E.
      * rewrite Hlen. unfold w1. simpl. by rewrite length_alter.
      * intros q. destruct (Hsame q) as [-> ->]. unfold w1. simpl.
        rewrite list_lookup_total_alter.
        case_decide as Hd; [destruct Hd as [-> _]|]; done.
      * intros q Hq. simpl in Hq. apply not_elem_of_cons in Hq as [Hne Hnin].
        rewrite Hout by done. unfold w1. simpl.
        by rewrite list_lookup_total_alter_ne.
      * intros Hall.
        destruct Hok as [-> Hgr].
        { intros p' g' Hin. rewrite Hhk. apply Hall. by right. }
        split; [done|]. intros Hnd p' g' g'' Hin Hlt Hrun'.
        simpl in Hnd. apply NoDup_cons in Hnd as [Hnotin Hnd].
        apply elem_of_cons in Hin as [Heq|Hin].
        -- injection Heq as -> ->. rewrite Hout by done.
           unfold w1. simpl. rewrite list_lookup_total_alter_eq by done.
           simpl. rewrite Hrun in Hrun'. by injection Hrun' as ->.
        -- assert (p' ≠ p).
           { intros ->. apply Hnotin. apply list_elem_of_fmap.
             by exists (p, g'). }
           rewrite (Hgr Hnd p' g' g'' Hin).
           ++ do 2 f_equal. unfold grad_of, w1. simpl.
              by rewrite list_lookup_total_alter_ne.
           ++ unfold w1. simpl. by rewrite length_alter.
           ++ by rewrite Hhk.
      * intros e0 (p' & g' & Hin & Hr) Hu.
        apply elem_of_cons in Hin as [Heq|Hin].
        { injection Heq as -> ->. congruence. }
        apply Hraise.
        -- exists p', g'. by rewrite Hhk.
        -- intros p'' g'' e Hin'' Hr''. rewrite Hhk in Hr''.
           eapply Hu; [|done]. by right.
    + exists (params w), (Raise e). rewrite set_params_id. split_and!; try done.
      * by rewrite backward_cons, Hrun.
      * intros Hall. destruct (Hall p g) as [g' Hg']; [by left|congruence].
      * intros e0 _ Hu. f_equal. eapply Hu; [|done]. by left.
Qed.

(** ** The optimizers *)

Lemma SGD_step_cons lr p ps w :
  SGD_step lr (p :: ps) w =
  SGD_step lr ps
    (match grad_of w p with
     | Some g => set_heap (<[storage w p := add_alpha (data_of w p) g (- lr)]>) w
     | None => w
     end).
Proof.
  unfold SGD_step. cbn [forM_]. unfold bind at 1. unfold bind at 1. unfold get at 1.
  destruct (grad_of w p); reflexivity.
Qed.

Lemma SGD_step_spec lr ps w :
  NoDup (storage w <$> ps) →
  ∃ h', SGD_step lr ps w = (set_heap (λ _, h') w, Ok tt)
    ∧ length h' = length (heap w)
    ∧ (∀ p, p ∈ ps → storage w p < length (heap w) →
         h' !!! storage w p = sgd_value lr w p)
    ∧ (∀ l, l ∉ storage w <$> ps → h' !!! l = heap w !!! l).
Proof.
  revert w. induction ps as [|p ps IH]; intros w Hnd.
  - exists (heap w). rewrite set_heap_id. split_and!; try done.
    intros p Hp. by apply elem_of_nil in Hp.
  - rewrite fmap_cons in Hnd. apply NoDup_cons in Hnd as [Hnotin Hnd].
    set (w1 := match grad_of w p with
               | Some g => set_heap (<[storage w p := add_alpha (data_of w p) g (- lr)]>) w
               | None => w
               end).
    assert (Hpar : params w1 = params w) by (unfold w1; by destruct (grad_of w p)).
    assert (Hst : ∀ q, storage w1 q = storage w q)
      by (intros q; unfold storage; by rewrite Hpar).
    assert (Hgr : ∀ q, grad_of w1 q = grad_of w q)
      by (intros q; unfold grad_of; by rewrite Hpar).
    assert (Hlen1 : length (heap w1) = length (heap w)).
    { unfold w1. destruct (grad_of w p); [simpl; by rewrite length_insert|done]. }
    assert (Hother : ∀ l, l ≠ storage w p → heap w1 !!! l = heap w !!! l).
    { intros l Hl. unfold w1. destruct (grad_of w p); [|done].
      simpl. by rewrite list_lookup_total_insert_ne. }
    assert (Hfm : storage w1 <$> ps = storage w <$> ps)
      by (apply list_fmap_ext; intros; apply Hst).
    destruct (IH w1) as (h' & E & Hlen & Hin & Hout); [by rewrite Hfm|].
    exists h'. split_and!.
    + rewrite SGD_step_cons. fold w1. rewrite E. unfold w1.
      by destruct (grad_of w p).
    + by rewrite Hlen.
    + intros q Hq Hlt. apply elem_of_cons in Hq as [->|Hq].
      * rewrite <- (Hst p), Hout by (by rewrite Hfm, Hst).
        rewrite Hst. unfold sgd_value, w1, data_of.
        destruct (grad_of w p); [|done].
        simpl. by rewrite list_lookup_total_insert_eq.
      * rewrite <- (Hst q), Hin; [|done|by rewrite Hst, Hlen1].
        unfold sgd_value, data_of. rewrite Hgr, Hst, Hother; [done|].
        intros Heq. apply Hnotin. rewrite <- Heq. by apply list_elem_of_fmap_2.
    + intros l Hl. rewrite fmap_cons in Hl. apply not_elem_of_cons in Hl as [Hne Hl].
      rewrite Hout by (by rewrite Hfm). by apply Hother.
Qed.

Lemma Adam_param_step_run p w : Adam_param_step p w = (adam_world w p, Ok tt).
Proof.
  unfold Adam_param_step, adam_world, adam_result. unfold bind at 1. unfold get at 1.
  destruct (grad_of w p) as [g|]; [|done].
  destruct (adam_math _ _ _ _ _ _) as [[p' m'] v']. reflexivity.
Qed.

Lemma Adam_loop_spec ps w :
  NoDup ps → NoDup (storage w <$> ps) →
  ∃ h' st', forM_ Adam_param_step ps w
            = (set_adam_state (λ _, st') (set_heap (λ _, h') w), Ok tt)
    ∧ length h' = length (heap w)
    ∧ (∀ p g, p ∈ ps → storage w p < length (heap w) → grad_of w p = Some g →
         h' !!! storage w p = (adam_result w p g).1
         ∧ st' !! p = Some (adam_result w p g).2)
    ∧ (∀ p, p ∈ ps → grad_of w p = None →
         h' !!! storage w p = data_of w p ∧ st' !! p = adam_state w !! p)
    ∧ (∀ l, l ∉ storage w <$> ps → h' !!! l = heap w !!! l)
    ∧ (∀ q, q ∉ ps → st' !! q = adam_state w !! q).
Proof.
  revert w. induction ps as [|p ps IH]; intros w Hndp Hnd.
  - exists (heap w), (adam_state w).
    split_and!; try done; try (by destruct w).
    intros p g Hp. by apply elem_of_nil in Hp.
  - rewrite fmap_cons in Hnd. apply NoDup_cons in Hnd as [Hnotin Hnd].
    apply NoDup_cons in Hndp as [Hpnotin Hndp].
    set (w1 := adam_world w p).
    assert (Hpar : params w1 = params w)
      by (unfold w1, adam_world; by destruct (grad_of w p)).
    assert (Hlr : meta_lr w1 = meta_lr w)
      by (unfold w1, adam_world; by destruct (grad_of w p)).
    assert (Hst : ∀ q, storage w1 q = storage w q)
      by (intros q; unfold storage; by rewrite Hpar).
    assert (Hgr : ∀ q, grad_of w1 q = grad_of w q)
      by (intros q; unfold grad_of; by rewrite Hpar).
    assert (Hlen1 : length (heap w1) = length (heap w)).
    { unfold w1, adam_world. destruct (grad_of w p); [simpl; by rewrite length_insert|done]. }
    assert (Hother : ∀ l, l ≠ storage w p → heap w1 !!! l = heap w !!! l).
    { intros l Hl. unfold w1, adam_world. destruct (grad_of w p); [|done].
      simpl. by rewrite list_lookup_total_insert_ne. }
    assert (Hsto : ∀ q, q ≠ p → adam_state w1 !! q = adam_state w !! q).
    { intros q Hq. unfold w1, adam_world. destruct (grad_of w p); [|done].
      simpl. by rewrite lookup_insert_ne. }
    assert (Hfm : storage w1 <$> ps = storage w <$> ps)
      by (apply list_fmap_ext; intros; apply Hst).
    assert (Hdata : ∀ q, q ∈ ps → data_of w1 q = data_of w q).
    { intros q Hq. unfold data_of. rewrite Hst. apply Hother.
      intros Heq. apply Hnotin. rewrite <- Heq. by apply list_elem_of_fmap_2. }
    assert (Hres : ∀ q g, q ∈ ps → adam_result w1 q g = adam_result w q g).
    { intros q g Hq. unfold adam_result. rewrite Hdata, Hlr, Hsto; [done| |done].
      intros ->. done. }
    destruct (IH w1) as (h' & st' & E & Hlen & Hsome & Hnone & Hout & Hsout);
      [done|by rewrite Hfm|].
    exists h', st'. split_and!.
    + cbn [forM_]. rewrite (bind_ok _ _ _ _ _ (Adam_param_step_run p w)).
      fold w1. rewrite E. unfold w1, adam_world. by destruct (grad_of w p).
    + by rewrite Hlen.
    + intros q g Hq Hlt Hg. apply elem_of_cons in Hq as [->|Hq].
      * rewrite <- (Hst p), Hout by (by rewrite Hfm, Hst).
        rewrite Hsout by done. rewrite Hst. unfold w1, adam_world. rewrite Hg. simpl.
        rewrite list_lookup_total_insert_eq by done. by rewrite lookup_insert_eq.
      * rewrite <- (Hst q), <- Hres by done.
        apply Hsome; [done|by rewrite Hst, Hlen1|by rewrite Hgr].
    + intros q Hq Hg. apply elem_of_cons in Hq as [->|Hq].
      * rewrite <- (Hst p), Hout by (by rewrite Hfm, Hst).
        rewrite Hsout by done. unfold w1, adam_world, data_of. by rewrite Hg.
      * rewrite <- (Hst q), <- Hdata, <- (Hsto q) by (done || by intros ->).
        apply Hnone; [done|by rewrite Hgr].
    + intros l Hl. rewrite fmap_cons in Hl. apply not_elem_of_cons in Hl as [Hne Hl].
      rewrite Hout by (by rewrite Hfm). by apply Hother.
    + intros q Hq. apply not_elem_of_cons in Hq as [Hne Hq].
      rewrite Hsout by done. by apply Hsto.
Qed.

(** ** Hooks *)

Lemma register_hook_run p f w :
  register_hook p f w
  = (set_params (alter (hooked (next_hook w) f) p) (set_next_hook (S (next_hook w)) w),
     Ok (p, next_hook w)).
Proof. reflexivity. Qed.

Lemma register_loop (sum : option (list Tensor)) ps k w :
  NoDup ps → (∀ p, p ∈ ps → p < length (params w)) →
  ∃ os, mapM (λ '(i, v), register_hook v (closure sum i)) (imap (λ i a, (k + i, a)) ps) w
        = (set_params (λ _, os) (set_next_hook (next_hook w + length ps) w),
           Ok (imap (λ i p, (p, next_hook w + i)) ps))
    ∧ length os = length (params w)
    ∧ (∀ q, p_data (os !!! q) = p_data (params w !!! q)
            ∧ p_grad (os !!! q) = p_grad (params w !!! q))
    ∧ (∀ i p, ps !! i = Some p →
         p_hooks (os !!! p) = hooks_of w p ++ [(next_hook w + i, closure sum (k + i))])
    ∧ (∀ q, q ∉ ps → os !!! q = params w !!! q).
Proof.
  revert k w. induction ps as [|p ps IH]; intros k w Hnd Hval.
  - exists (params w). split_and!; try done.
    simpl. rewrite Nat.add_0_r. by destruct w.
  - apply NoDup_cons in Hnd as [Hnotin Hnd].
    set (w1 := set_params (alter (hooked (next_hook w) (closure sum (k + 0))) p)
                 (set_next_hook (S (next_hook w)) w)).
    destruct (IH (S k) w1) as (os & E & Hlen & Hsame & Hin & Hout); [done| |].
    { intros q Hq. unfold w1. simpl. rewrite length_alter. apply Hval. by right. }
    exists os. split_and!.
    + rewrite !imap_cons. cbn [mapM].
      rewrite (bind_ok _ _ _ _ _ (register_hook_run p (closure sum (k + 0)) w)).
      fold w1.
      rewrite (imap_ext _ (λ i a, (S k + i, a))) by (intros; simpl; f_equal; lia).
      rewrite (bind_ok _ _ _ _ _ E). unfold ret. f_equal.
      * unfold w1. simpl. by rewrite Nat.add_succ_r.
      * rewrite Nat.add_0_r. do 2 f_equal.
        apply imap_ext. intros. simpl. f_equal. lia.
    + rewrite Hlen. unfold w1. simpl. by rewrite length_alter.
    + intros q. destruct (Hsame q) as [-> ->]. unfold w1. simpl.
      rewrite list_lookup_total_alter.
      case_decide as Hd; [destruct Hd as [-> _]|]; done.
    + intros i q Hi. destruct i as [|i]; simpl in Hi.
      * injection Hi as ->. rewrite Hout by done. unfold w1, hooks_of. simpl.
        rewrite list_lookup_total_alter_eq by (apply Hval; by left).
        simpl. by rewrite !Nat.add_0_r.
      * rewrite (Hin i q Hi). unfold w1, hooks_of. simpl.
        rewrite list_lookup_total_alter_ne.
        -- do 3 f_equal; [lia|f_equal; lia].
        -- intros ->. apply Hnotin. by eapply list_elem_of_lookup_2.
    + intros q Hq. apply not_elem_of_cons in Hq as [Hne Hq].
      rewrite Hout by done. unfold w1. simpl. by rewrite list_lookup_total_alter_ne.
Qed.

Lemma remove_loop (hs : list (pid * nat)) w :
  (∀ h, h ∈ hs → h.1 < length (params w)) →
  ∃ os, forM_ remove_hook hs w = (set_params (λ _, os) w, Ok tt)
    ∧ length os = length (params w)
    ∧ (∀ q, p_data (os !!! q) = p_data (params w !!! q)
            ∧ p_grad (os !!! q) = p_grad (params w !!! q))
    ∧ (∀ q, p_hooks (os !!! q) = filter (λ e, (q, e.1) ∉ hs) (hooks_of w q)).
Proof.
  revert w. induction hs as [|h hs IH]; intros w Hval.
  - exists (params w). rewrite set_params_id. split_and!; try done.
    intros q. unfold hooks_of. induction (p_hooks (params w !!! q)) as [|e l IHl]; [done|].
    rewrite filter_cons_True; [by f_equal|]. apply not_elem_of_nil.
  - set (w1 := set_params (alter (unhooked h.2) h.1) w).
    destruct (IH w1) as (os & E & Hlen & Hsame & Hhk).
    { intros h' Hh'. unfold w1. simpl. rewrite length_alter. apply Hval. by right. }
    exists os. split_and!.
    + exact E.
    + rewrite Hlen. unfold w1. simpl. by rewrite length_alter.
    + intros q. destruct (Hsame q) as [-> ->]. unfold w1. simpl.
      rewrite list_lookup_total_alter.
      case_decide as Hd; [destruct Hd as [-> _]|]; done.
    + intros q. rewrite Hhk. unfold w1, hooks_of. simpl.
      rewrite list_lookup_total_alter. case_decide as Hd.
      * destruct Hd as [<- _]. simpl. rewrite list_filter_filter.
        apply list_filter_iff. intros [id f]. simpl. rewrite not_elem_of_cons.
        destruct h as [hp hid]. simpl. split.
        -- intros [? ?]. split; [|done]. intros [= ?]. done.
        -- intros [Hne ?]. split; [done|]. intros ->. done.
      * apply list_filter_iff. intros [id f]. simpl. rewrite not_elem_of_cons.
        split; [|by intros [_ ?]]. intros ?. split; [|done].
        intros Heq. apply Hd. rewrite <- Heq. split; [done|].
        apply (Hval (q, id)). rewrite Heq. by left.
Qed.

(** ** Layout: what all the methods keep *)

Lemma same_layout_refl w : same_layout w w.
Proof. by repeat split. Qed.

Lemma same_layout_trans w1 w2 w3 :
  same_layout w1 w2 → same_layout w2 w3 → same_layout w1 w3.
Proof.
  intros (?&?&?&?&?&?&?&?&Hs&Hh) (?&?&?&?&?&?&?&?&Hs'&Hh').
  repeat split; try congruence; try lia.
Qed.

Lemma same_layout_all_params w w' : same_layout w w' → all_params w' = all_params w.
Proof. intros (Hn&Hp&_). unfold all_params. by rewrite Hn, Hp. Qed.

Lemma wf_same_layout w w' : wf w → same_layout w w' → wf w'.
Proof.
  intros (Ha&Hv&Hnd&Hl&Hlnd&Hs&Had&Hh) HL.
  pose proof (same_layout_all_params _ _ HL) as Hall.
  destruct HL as (Hn&Hp&Hsg&Hadp&_&_&Hlen&Hhl&Hst&Hhk).
  unfold wf. rewrite Hall, Hn, Hp, Hsg, Hadp, Hlen. split_and!; try done.
  - eapply Forall_impl; [exact Hl|]. intros p Hp'. simpl in *. rewrite Hst. lia.
  - erewrite list_fmap_ext; [exact Hlnd|]. intros. apply Hst.
  - eapply Forall_impl; [exact Hh|]. intros p Hp'. simpl in *. by rewrite Hhk.
Qed.

Lemma run_hooks_single id (h : Hook) g : run_hooks [(id, h)] g = h g.
Proof. simpl. by destruct (h g). Qed.

Lemma filter_all {A} (P : A → Prop) `{∀ x, Decision (P x)} (l : list A) :
  (∀ x, x ∈ l → P x) → filter P l = l.
Proof.
  induction l as [|x l IH]; intros HP; [done|].
  rewrite filter_cons_True by (apply HP; by left).
  f_equal. apply IH. intros y Hy. apply HP. by right.
Qed.

(** ** [write_grads] *)

(** The store when [write_grads] reaches [dummy_loss.backward()]: every base
    parameter carries its substitution hook and has no gradient. *)
Lemma write_grads_prefix dl sum w :
  let bps := parameters (net w) in
  adam_params w = bps → NoDup bps → (∀ p, p ∈ bps → p < length (params w)) →
  ∃ os,
    let w2 := set_params (λ _, os) (set_next_hook (next_hook w + length bps) w) in
    let hs := imap (λ i p, (p, next_hook w + i)) bps in
    write_grads dl sum w
    = (backward dl;; Adam_step;; forM_ remove_hook hs) w2
    ∧ length os = length (params w)
    ∧ (∀ q, storage w2 q = storage w q)
    ∧ (∀ i p, bps !! i = Some p →
         hooks_of w2 p = hooks_of w p ++ [(next_hook w + i, closure sum i)]
         ∧ grad_of w2 p = None)
    ∧ (∀ q, q ∉ bps → params w2 !!! q = params w !!! q).
Proof.
  intros bps Hadam Hnd Hval.
  destruct (register_loop sum bps 0 w Hnd Hval) as (os1 & E1 & Hl1 & Hs1 & Hh1 & Ho1).
  change (imap (λ i a, (0 + i, a)) bps) with (enumerate bps) in E1.
  set (w1 := set_params (λ _, os1) (set_next_hook (next_hook w + length bps) w)) in *.
  destruct (zero_grad_spec bps w1) as (os2 & E2 & Hl2 & Hs2 & Hg2 & Ho2).
  exists os2. cbn zeta. split_and!.
  - unfold write_grads.
    rewrite (bind_ok _ _ w w bps) by reflexivity.
    fold bps. rewrite (bind_ok _ _ _ _ _ E1).
    rewrite (bind_ok _ _ w1 w1 w1) by reflexivity.
    change (adam_params w1) with (adam_params w). rewrite Hadam. fold bps.
    rewrite (bind_ok _ _ _ _ _ E2). reflexivity.
  - by rewrite Hl2.
  - intros q. unfold storage. simpl. destruct (Hs2 q) as [-> _].
    simpl. by destruct (Hs1 q) as [-> _].
  - intros i p Hi. assert (p ∈ bps) by (by eapply list_elem_of_lookup_2). split.
    + unfold hooks_of at 1. simpl. destruct (Hs2 p) as [_ ->]. simpl.
      by rewrite (Hh1 i p Hi).
    + unfold grad_of. simpl. apply Hg2; [done|]. simpl. rewrite Hl1. by apply Hval.
  - intros q Hq. simpl. rewrite Ho2 by done. simpl. by apply Ho1.
Qed.

Lemma ParamObj_eq (a b : ParamObj) :
  p_data a = p_data b → p_grad a = p_grad b → p_hooks a = p_hooks b → a = b.
Proof. destruct a, b. simpl. by intros -> -> ->. Qed.

Lemma elem_of_handles (n0 : nat) ps (h : pid * nat) :
  h ∈ imap (λ i p, (p, n0 + i)) ps ↔ ∃ i p, ps !! i = Some p ∧ h = (p, n0 + i).
Proof.
  rewrite list_elem_of_lookup. split.
  - intros (i & Hi). rewrite list_lookup_imap in Hi.
    destruct (ps !! i) as [p|] eqn:Hp; simplify_eq/=. eauto.
  - intros (i & p & Hp & ->). exists i. by rewrite list_lookup_imap, Hp.
Qed.

(** With a gradient vector that covers the parameters, [write_grads]
    returns; the gradient of the parameter at position [i] is [l[i]], its
    value and optimizer state are one Adam step on [l[i]], and no hook is
    left. *)
Lemma write_grads_ok dl l w :
  let bps := parameters (net w) in
  adam_params w = bps → NoDup bps → (∀ p, p ∈ bps → p < length (params w)) →
  (∀ p, p ∈ bps → storage w p < length (heap w)) → NoDup (storage w <$> bps) →
  (∀ p, p ∈ bps → hooks_of w p = []) →
  (graph dl).*1 = bps → length bps ≤ length l →
  ∃ w', write_grads dl (Some l) w = (w', Ok tt)
    ∧ same_layout w w'
    ∧ length (heap w') = length (heap w)
    ∧ (∀ i p, bps !! i = Some p →
         grad_of w' p = Some (l !!! i)
         ∧ data_of w' p = (adam_result w p (l !!! i)).1
         ∧ adam_state w' !! p = Some (adam_result w p (l !!! i)).2)
    ∧ (∀ q, q ∉ bps → params w' !!! q = params w !!! q
                      ∧ adam_state w' !! q = adam_state w !! q)
    ∧ (∀ loc, loc ∉ storage w <$> bps → heap w' !!! loc = heap w !!! loc).
Proof.
  intros bps Hadam Hnd Hval Hloc Hlnd Hhk Hleaves Hlen.
  destruct (write_grads_prefix dl (Some l) w Hadam Hnd Hval)
    as (os2 & E & Hl2 & Hst2 & Hh2 & Ho2).
  fold bps in E, Hh2, Ho2. cbn zeta in *.
  set (w2 := set_params (λ _, os2) (set_next_hook (next_hook w + length bps) w)) in *.
  set (hs := imap (λ i p, (p, next_hook w + i)) bps) in *.
  destruct dl as [v G]. simpl in Hleaves.
  destruct (backward_spec v G w2) as (os3 & r & E3 & Hl3 & Hs3 & Ho3 & Hok3 & _).
  assert (Hrun : ∀ i p g, bps !! i = Some p →
            run_hooks (hooks_of w2 p) g = Ok (l !!! i)).
  { intros i p g Hi. destruct (Hh2 i p Hi) as [-> _].
    rewrite Hhk by (by eapply list_elem_of_lookup_2). simpl.
    unfold closure, subscript.
    destruct (lookup_lt_is_Some_2 l i) as [x Hx].
    { apply lookup_lt_Some in Hi. lia. }
    rewrite Hx. by rewrite (list_lookup_total_correct _ _ _ Hx). }
  assert (Hleaf : ∀ p g, (p, g) ∈ G → ∃ i, bps !! i = Some p).
  { intros p g Hin. apply list_elem_of_lookup. rewrite <- Hleaves.
    apply list_elem_of_fmap. by exists (p, g). }
  destruct Hok3 as [-> Hg3].
  { intros p g Hin. destruct (Hleaf p g Hin) as [i Hi]. eauto. }
  set (w3 := set_params (λ _, os3) w2) in *.
  assert (Hst3 : ∀ q, storage w3 q = storage w q).
  { intros q. rewrite <- Hst2. unfold storage. simpl. by destruct (Hs3 q) as [-> _]. }
  assert (Hhk3 : ∀ q, hooks_of w3 q = hooks_of w2 q).
  { intros q. unfold hooks_of. simpl. by destruct (Hs3 q) as [_ ->]. }
  assert (Hgr3 : ∀ i p, bps !! i = Some p → grad_of w3 p = Some (l !!! i)).
  { intros i p Hi.
    assert (p ∈ G.*1) as ([p' g] & Hp & Hin)%list_elem_of_fmap
      by (rewrite Hleaves; by eapply list_elem_of_lookup_2).
    simpl in Hp. subst p'. unfold grad_of. simpl.
    rewrite (Hg3 ltac:(by rewrite Hleaves) p g (l !!! i) Hin).
    - by destruct (Hh2 i p Hi) as [_ ->].
    - simpl. rewrite Hl2. apply Hval. by eapply list_elem_of_lookup_2.
    - by apply Hrun. }
  assert (Hfm3 : storage w3 <$> bps = storage w <$> bps)
    by (apply list_fmap_ext; intros; apply Hst3).
  destruct (Adam_loop_spec bps w3) as (h4 & st4 & E4 & Hl4 & Hsome4 & _ & Hout4 & Hsout4);
    [done|by rewrite Hfm3|].
  set (w4 := set_adam_state (λ _, st4) (set_heap (λ _, h4) w3)) in *.
  assert (Hres : ∀ p g, adam_result w3 p g = adam_result w p g).
  { intros p g. unfold adam_result, data_of. by rewrite Hst3. }
  destruct (remove_loop hs w4) as (os5 & E5 & Hl5 & Hs5 & Hh5).
  { intros h (i & p & Hi & ->)%elem_of_handles. simpl. rewrite Hl3. simpl.
    rewrite Hl2. apply Hval. by eapply list_elem_of_lookup_2. }
  set (w5 := set_params (λ _, os5) w4) in *.
  assert (Hhk5 : ∀ q, hooks_of w5 q = hooks_of w q).
  { intros q. unfold hooks_of at 1. simpl. rewrite Hh5.
    change (hooks_of w4 q) with (hooks_of w3 q). rewrite Hhk3.
    destruct (decide (q ∈ bps)) as [Hq|Hq].
    - apply list_elem_of_lookup in Hq as [i Hi].
      destruct (Hh2 i q Hi) as [-> _].
      rewrite Hhk by (by eapply list_elem_of_lookup_2). simpl.
      rewrite filter_cons_False; [done|]. simpl. intros Hn. apply Hn.
      apply elem_of_handles. eauto.
    - unfold hooks_of. rewrite Ho2 by done. apply filter_all.
      intros e _ (i & p & Hi & [= -> _])%elem_of_handles.
      apply Hq. by eapply list_elem_of_lookup_2. }
  exists w5. split_and!.
  - assert (E4' : Adam_step w3 = (w4, Ok tt)).
    { unfold Adam_step. rewrite (bind_ok _ _ w3 w3 w3) by reflexivity.
      change (adam_params w3) with (adam_params w). rewrite Hadam. exact E4. }
    rewrite E, (bind_ok _ _ _ _ _ E3), (bind_ok _ _ _ _ _ E4'). exact E5.
  - repeat split; try done.
    + simpl. rewrite Hl5. simpl. rewrite Hl3. simpl. by rewrite Hl2.
    + simpl. rewrite Hl4. done.
    + intros q. rewrite <- Hst3. unfold storage. simpl. by destruct (Hs5 q) as [-> _].
  - simpl. by rewrite Hl4.
  - intros i p Hi. assert (Hp : p ∈ bps) by (by eapply list_elem_of_lookup_2).
    destruct (Hsome4 p (l !!! i)) as [Hv Hs]; [done| |by apply Hgr3|].
    { rewrite Hst3. simpl. by apply Hloc. }
    rewrite Hres in Hv, Hs. split_and!.
    + unfold grad_of. simpl. destruct (Hs5 p) as [_ ->]. simpl.
      by apply (Hgr3 i p Hi).
    + rewrite <- Hv. unfold data_of. f_equal.
      unfold storage. simpl. by destruct (Hs5 p) as [-> _].
    + exact Hs.
  - intros q Hq. split.
    + apply ParamObj_eq.
      * apply (eq_trans (proj1 (Hs5 q))). simpl.
        apply (eq_trans (proj1 (Hs3 q))). by rewrite Ho2.
      * apply (eq_trans (proj2 (Hs5 q))). simpl. rewrite Ho3; [by rewrite Ho2|].
        by rewrite Hleaves.
      * apply (Hhk5 q).
    + simpl. by apply Hsout4.
  - intros loc Hloc'. simpl. apply Hout4. by rewrite Hfm3.
Qed.

(** With a gradient vector shorter than the parameter list, the hook of a
    parameter past its end raises [IndexError] inside [backward]: the
    optimizer step and the removal loop are not reached. *)
Lemma write_grads_short dl l w :
  let bps := parameters (net w) in
  adam_params w = bps → NoDup bps → (∀ p, p ∈ bps → p < length (params w)) →
  (∀ p, p ∈ bps → hooks_of w p = []) →
  (graph dl).*1 = bps → length l < length bps →
  ∃ w', write_grads dl (Some l) w = (w', Raise IndexError)
    ∧ heap w' = heap w
    ∧ adam_state w' = adam_state w
    ∧ (∀ q, storage w' q = storage w q)
    ∧ (∀ i p, bps !! i = Some p →
         hooks_of w' p = [(next_hook w + i, closure (Some l) i)]).
Proof.
  intros bps Hadam Hnd Hval Hhk Hleaves Hlen.
  destruct (write_grads_prefix dl (Some l) w Hadam Hnd Hval)
    as (os2 & E & Hl2 & Hst2 & Hh2 & Ho2).
  fold bps in E, Hh2, Ho2. cbn zeta in *.
  set (w2 := set_params (λ _, os2) (set_next_hook (next_hook w + length bps) w)) in *.
  destruct dl as [v G]. simpl in Hleaves.
  destruct (backward_spec v G w2) as (os3 & r & E3 & Hl3 & Hs3 & Ho3 & _ & Hraise).
  assert (Hrun : ∀ i p g, bps !! i = Some p →
            run_hooks (hooks_of w2 p) g = subscript l i).
  { intros i p g Hi. destruct (Hh2 i p Hi) as [-> _].
    rewrite Hhk by (by eapply list_elem_of_lookup_2). simpl.
    unfold closure. by destruct (subscript l i). }
  assert (Hleaf : ∀ p g, (p, g) ∈ G → ∃ i, bps !! i = Some p).
  { intros p g Hin. apply list_elem_of_lookup. rewrite <- Hleaves.
    apply list_elem_of_fmap. by exists (p, g). }
  rewrite (Hraise IndexError) in E3.
  - exists (set_params (λ _, os3) w2). split_and!; try done.
    + rewrite E. by rewrite (bind_raise _ _ _ _ _ E3).
    + intros q. rewrite <- Hst2. unfold storage. simpl. by destruct (Hs3 q) as [-> _].
    + intros i p Hi. unfold hooks_of at 1. simpl. destruct (Hs3 p) as [_ ->].
      change (p_hooks (params w2 !!! p)) with (hooks_of w2 p).
      destruct (Hh2 i p Hi) as [-> _].
      by rewrite Hhk by (by eapply list_elem_of_lookup_2).
  - destruct (lookup_lt_is_Some_2 bps (length l)) as [p Hp]; [done|].
    assert (p ∈ G.*1) as ([p' g] & Hp' & Hin)%list_elem_of_fmap
      by (rewrite Hleaves; by eapply list_elem_of_lookup_2).
    simpl in Hp'. subst p'. exists p, g. split; [done|].
    rewrite (Hrun _ _ _ Hp). unfold subscript.
    by rewrite lookup_ge_None_2.
  - intros p g e Hin Hr. destruct (Hleaf p g Hin) as [i Hi].
    rewrite (Hrun _ _ _ Hi) in Hr. unfold subscript in Hr.
    destruct (l !! i); congruence.
Qed.

(** ** [update_pi] *)

Lemma update_layer_run mf mt w :
  same_shape mf mt →
  update_layer (mf, mt) w = (foldl copy_world w (copy_pairs (mf, mt)), Ok tt).
Proof.
  intros (_ & Hw & Hb & Hc). unfold update_layer, copy_pairs. simpl.
  destruct (is_copied (kind mt)); [|done].
  destruct (Hc eq_refl) as [d Hd]. destruct (proj1 Hw) as [s Hs]; [by rewrite Hd|].
  rewrite Hd, Hs. simpl.
  destruct (bias mt) as [bd|]; simpl.
  - destruct (proj1 Hb) as [bs ->]; [done|]. reflexivity.
  - destruct (bias mf); reflexivity.
Qed.

Lemma update_loop_run zs w :
  Forall (λ mm, same_shape mm.1 mm.2) zs →
  forM_ update_layer zs w = (foldl copy_world w (zs ≫= copy_pairs), Ok tt).
Proof.
  intros Hzs. revert w. induction Hzs as [|[mf mt] zs Hs _ IH]; intros w; [done|].
  cbn [forM_]. rewrite (bind_ok _ _ _ _ _ (update_layer_run mf mt w Hs)).
  rewrite IH. by rewrite bind_cons, foldl_app.
Qed.

Lemma Forall2_zip {A B} (P : A → B → Prop) l k :
  Forall2 P l k → Forall (λ ab, P ab.1 ab.2) (zip l k).
Proof. induction 1; constructor; done. Qed.

Lemma update_pi_run w :
  Forall2 same_shape (net w) (net_pi w) →
  update_pi w = (foldl copy_world w (zip (net w) (net_pi w) ≫= copy_pairs), Ok tt).
Proof.
  intros H. unfold update_pi. rewrite (bind_ok _ _ w w w) by reflexivity.
  apply update_loop_run. by apply Forall2_zip.
Qed.

Lemma set_heap_ext h1 h2 w : h1 = h2 → set_heap (λ _, h1) w = set_heap (λ _, h2) w.
Proof. by intros ->. Qed.

Lemma copies_spec cps w :
  NoDup cps.*2 → (∀ d, d ∈ cps.*2 → d < length (params w)) →
  (∀ s, s ∈ cps.*1 → (s ∉ cps.*2) ∧ storage w s < length (heap w)) →
  ∃ os h', foldl copy_world w cps = set_params (λ _, os) (set_heap (λ _, heap w ++ h') w)
    ∧ length os = length (params w) ∧ length h' = length cps
    ∧ (∀ q, p_grad (os !!! q) = p_grad (params w !!! q)
            ∧ p_hooks (os !!! q) = p_hooks (params w !!! q))
    ∧ (∀ q, q ∉ cps.*2 → os !!! q = params w !!! q)
    ∧ (∀ k s d, cps !! k = Some (s, d) →
         p_data (os !!! d) = length (heap w) + k ∧ h' !! k = Some (data_of w s)).
Proof.
  revert w. induction cps as [|[s d] cps IH]; intros w Hnd Hval Hsrc.
  - exists (params w), []. split_and!; try done.
    simpl. rewrite app_nil_r. by destruct w.
  - simpl in Hnd. apply NoDup_cons in Hnd as [Hnotin Hnd].
    set (w1 := copy_world w (s, d)).
    assert (Hlen1 : length (params w1) = length (params w))
      by (unfold w1, copy_world; simpl; by rewrite length_alter).
    assert (Hheap1 : heap w1 = heap w ++ [data_of w s]) by done.
    assert (Hne : ∀ q, q ≠ d → params w1 !!! q = params w !!! q).
    { intros q Hq. unfold w1, copy_world. simpl.
      by rewrite list_lookup_total_alter_ne. }
    assert (Hsd : ∀ s', s' ∈ cps.*1 →
              s' ≠ d ∧ (s' ∉ cps.*2) ∧ storage w s' < length (heap w)).
    { intros s' Hs'. destruct (Hsrc s') as [Hn Hl]; [simpl; by right|].
      simpl in Hn. apply not_elem_of_cons in Hn as [? ?]. done. }
    assert (Hdata : ∀ s', s' ∈ cps.*1 → data_of w1 s' = data_of w s').
    { intros s' Hs'. destruct (Hsd s' Hs') as (Hn1 & _ & Hl).
      unfold data_of, storage. rewrite Hne by done. rewrite Hheap1.
      by rewrite lookup_total_app_l. }
    destruct (IH w1) as (os & h1 & E & Hl & Hlh & Hsame & Hout & Hin); [done| | |].
    { intros d' Hd'. rewrite Hlen1. apply Hval. simpl. by right. }
    { intros s' Hs'. destruct (Hsd s' Hs') as (Hn1 & Hn2 & Hl). split; [done|].
      unfold storage. rewrite Hne by done. rewrite Hheap1, length_app. simpl.
      unfold storage in Hl. lia. }
    exists os, (data_of w s :: h1). split_and!.
    + simpl. fold w1. rewrite E, Hheap1.
      rewrite <- (set_heap_ext _ _ _ (app_assoc (heap w) [data_of w s] h1)).
      reflexivity.
    + by rewrite Hl.
    + simpl. by rewrite Hlh.
    + intros q. destruct (Hsame q) as [-> ->]. unfold w1, copy_world. simpl.
      rewrite list_lookup_total_alter.
      case_decide as Hd; [destruct Hd as [-> _]|]; done.
    + intros q Hq. simpl in Hq. apply not_elem_of_cons in Hq as [Hq1 Hq2].
      rewrite Hout by done. by apply Hne.
    + intros k s' d' Hk. destruct k as [|k]; simpl in Hk.
      * injection Hk as -> ->. rewrite Hout by done. split; [|done].
        unfold w1, copy_world. simpl.
        rewrite list_lookup_total_alter_eq by (apply Hval; simpl; by left).
        simpl. lia.
      * destruct (Hin k s' d' Hk) as [Hd' Hh']. split.
        -- rewrite Hd', Hheap1, length_app. simpl. lia.
        -- simpl. rewrite Hh'. f_equal. apply Hdata.
           apply list_elem_of_fmap. exists (s', d'). split; [done|].
           by eapply list_elem_of_lookup_2.
Qed.

Lemma NoDup_fmap_elem_inj {A B} (f : A → B) (l : list A) x y :
  NoDup (f <$> l) → x ∈ l → y ∈ l → f x = f y → x = y.
Proof.
  induction l as [|a l IH]; intros Hnd Hx Hy Hf; [by apply elem_of_nil in Hx|].
  rewrite fmap_cons in Hnd. apply NoDup_cons in Hnd as [Hnotin Hnd].
  apply elem_of_cons in Hx as [->|Hx]; apply elem_of_cons in Hy as [->|Hy].
  - done.
  - exfalso. apply Hnotin. rewrite Hf. by apply list_elem_of_fmap_2.
  - exfalso. apply Hnotin. rewrite <- Hf. by apply list_elem_of_fmap_2.
  - by apply IH.
Qed.

Lemma copy_pairs_snd_sublist mm : (copy_pairs mm).*2 `sublist_of` module_parameters mm.2.
Proof.
  destruct mm as [mf mt]. unfold copy_pairs, module_parameters. simpl.
  destruct (is_copied (kind mt)); [|apply sublist_nil_l].
  rewrite fmap_app. apply sublist_app.
  - destruct (weight mf), (weight mt); simpl; try done; apply sublist_nil_l.
  - destruct (bias mf), (bias mt); simpl; try done; apply sublist_nil_l.
Qed.

Lemma copy_pairs_fst_sublist mm : (copy_pairs mm).*1 `sublist_of` module_parameters mm.1.
Proof.
  destruct mm as [mf mt]. unfold copy_pairs, module_parameters. simpl.
  destruct (is_copied (kind mt)); [|apply sublist_nil_l].
  rewrite fmap_app. apply sublist_app.
  - destruct (weight mf), (weight mt); simpl; try done; apply sublist_nil_l.
  - destruct (bias mf), (bias mt); simpl; try done; apply sublist_nil_l.
Qed.

Lemma copies_snd_sublist ms ms' :
  (zip ms ms' ≫= copy_pairs).*2 `sublist_of` parameters ms'.
Proof.
  revert ms'. induction ms as [|m ms IH]; intros [|m' ms']; try apply sublist_nil_l.
  unfold parameters. simpl. rewrite fmap_app. apply sublist_app.
  - apply (copy_pairs_snd_sublist (m, m')).
  - apply IH.
Qed.

Lemma copies_fst_sublist ms ms' :
  (zip ms ms' ≫= copy_pairs).*1 `sublist_of` parameters ms.
Proof.
  revert ms'. induction ms as [|m ms IH]; intros [|m' ms']; try apply sublist_nil_l.
  unfold parameters. simpl. rewrite fmap_app. apply sublist_app.
  - apply (copy_pairs_fst_sublist (m, m')).
  - apply IH.
Qed.

Lemma wf_all_params w p : wf w → p ∈ all_params w →
  p < length (params w) ∧ storage w p < length (heap w) ∧ hooks_of w p = [].
Proof.
  intros (_&Hv&_&Hl&_&_&_&Hh) Hp.
  rewrite Forall_forall in Hv, Hl, Hh.
  split_and!; [by apply Hv|by apply Hl|apply hooks_nil; by apply Hh].
Qed.

Lemma wf_base_working w p q :
  wf w → p ∈ parameters (net w) → q ∈ parameters (net_pi w) →
  p ≠ q ∧ storage w p ≠ storage w q.
Proof.
  intros (_&_&Hnd&_&Hlnd&_) Hp Hq.
  assert (p ≠ q).
  { unfold all_params in Hnd. apply NoDup_app in Hnd as (_ & Hd & _).
    intros ->. by apply (Hd q). }
  split; [done|]. intros Heq.
  apply (NoDup_fmap_elem_inj _ _ p q Hlnd) in Heq; [done| |];
    unfold all_params; rewrite elem_of_app; auto.
Qed.

(** [update_pi] returns, keeps the learner well formed, and only re-points
    the parameters it copies to, each to a fresh storage holding the value
    of its source. *)
Lemma update_pi_spec w :
  wf w →
  ∃ os h', update_pi w = (set_params (λ _, os) (set_heap (λ _, heap w ++ h') w), Ok tt)
    ∧ wf (set_params (λ _, os) (set_heap (λ _, heap w ++ h') w))
    ∧ length os = length (params w)
    ∧ (∀ q, p_grad (os !!! q) = p_grad (params w !!! q)
            ∧ p_hooks (os !!! q) = p_hooks (params w !!! q))
    ∧ (∀ q, q ∉ (copies w).*2 → os !!! q = params w !!! q)
    ∧ (∀ s d, (s, d) ∈ copies w →
         length (heap w) ≤ p_data (os !!! d) < length (heap w ++ h')
         ∧ (heap w ++ h') !!! p_data (os !!! d) = data_of w s).
Proof.
  intros Hwf. pose proof Hwf as (Ha&Hv&Hnd&Hl&Hlnd&Hs&Had&Hh).
  assert (Hsub2 := copies_snd_sublist (net w) (net_pi w)).
  assert (Hsub1 := copies_fst_sublist (net w) (net_pi w)).
  fold (copies w) in Hsub1, Hsub2.
  assert (Hndw : NoDup (parameters (net_pi w))).
  { unfold all_params in Hnd. by apply NoDup_app in Hnd as (_ & _ & ?). }
  assert (Hdst : ∀ d, d ∈ (copies w).*2 → d ∈ all_params w).
  { intros d Hd. unfold all_params. rewrite elem_of_app. right.
    by eapply elem_of_sublist. }
  assert (Hsrc : ∀ s, s ∈ (copies w).*1 → s ∈ parameters (net w)).
  { intros s Hs'. by eapply elem_of_sublist. }
  destruct (copies_spec (copies w) w) as (os & h' & E & Hlen & Hlh & Hsame & Hout & Hin).
  { by eapply sublist_NoDup. }
  { intros d Hd. by apply (wf_all_params w d Hwf), Hdst. }
  { intros s Hs'. split.
    - intros Hd. apply (wf_base_working w s s Hwf); [by apply Hsrc| |done].
      by eapply elem_of_sublist.
    - apply (wf_all_params w s Hwf). unfold all_params. rewrite elem_of_app.
      left. by apply Hsrc. }
  assert (Hidx : ∀ d, d ∈ (copies w).*2 → ∃ k s, copies w !! k = Some (s, d)).
  { intros d ([s d'] & Hd & Hsd)%list_elem_of_fmap. simpl in Hd. subst d'.
    apply list_elem_of_lookup in Hsd as [k Hk]. eauto. }
  assert (Hfresh : ∀ k s d, copies w !! k = Some (s, d) →
            length (heap w) ≤ p_data (os !!! d) < length (heap w ++ h')).
  { intros k s d Hk. destruct (Hin k s d Hk) as [-> _].
    rewrite length_app, Hlh. apply lookup_lt_Some in Hk. lia. }
  exists os, h'. split_and!; try done.
  - rewrite update_pi_run by done. by rewrite <- E.
  - set (w' := set_params (λ _, os) (set_heap (λ _, heap w ++ h') w)).
    assert (Hst : ∀ q, q ∉ (copies w).*2 → storage w' q = storage w q).
    { intros q Hq. unfold storage. simpl. by rewrite Hout. }
    unfold wf. change (all_params w') with (all_params w).
    split_and!; try done.
    + simpl. by rewrite Hlen.
    + apply Forall_forall. intros p Hp.
      destruct (decide (p ∈ (copies w).*2)) as [Hc|Hc].
      * destruct (Hidx p Hc) as (k & s & Hk). apply (Hfresh k s p Hk).
      * rewrite Hst by done. simpl. rewrite length_app.
        destruct (wf_all_params w p Hwf Hp) as (_ & ? & _). lia.
    + apply NoDup_fmap_2_strong; [|done]. intros p q Hp Hq Heq.
      destruct (decide (p ∈ (copies w).*2)) as [Hcp|Hcp];
        destruct (decide (q ∈ (copies w).*2)) as [Hcq|Hcq].
      * destruct (Hidx p Hcp) as (k1 & s1 & Hk1).
        destruct (Hidx q Hcq) as (k2 & s2 & Hk2).
        unfold storage in Heq. simpl in Heq.
        destruct (Hin k1 s1 p Hk1) as [E1 _]. destruct (Hin k2 s2 q Hk2) as [E2 _].
        assert (k1 = k2) by lia. subst k2. congruence.
      * exfalso. destruct (Hidx p Hcp) as (k1 & s1 & Hk1).
        pose proof (Hfresh k1 s1 p Hk1) as Hf.
        rewrite (Hst q Hcq) in Heq. unfold storage in Heq at 1. simpl in Heq.
        destruct (wf_all_params w q Hwf Hq) as (_ & ? & _). lia.
      * exfalso. destruct (Hidx q Hcq) as (k1 & s1 & Hk1).
        pose proof (Hfresh k1 s1 q Hk1) as Hf.
        rewrite (Hst p Hcp) in Heq. unfold storage in Heq at 2. simpl in Heq.
        destruct (wf_all_params w p Hwf Hp) as (_ & ? & _). lia.
      * rewrite !Hst in Heq by done.
        by apply (NoDup_fmap_elem_inj _ _ p q Hlnd).
    + apply Forall_forall. intros p Hp. unfold hooks_of. simpl.
      destruct (Hsame p) as [_ ->].
      rewrite Forall_forall in Hh. by apply Hh.
  - intros s d Hsd. apply list_elem_of_lookup in Hsd as [k Hk].
    split; [by apply (Hfresh k s d Hk)|].
    destruct (Hin k s d Hk) as [-> Hh'].
    rewrite lookup_total_app_r by lia.
    replace (length (heap w) + k - length (heap w)) with k by lia.
    by apply list_lookup_total_correct.
Qed.

(** ** [Learner.forward] *)

Lemma call_net_run ms a w :
  call_net ms a w
  = (w, Ok (mkLoss _ (net_loss (values w (parameters ms)) a)
              (imap (λ i p, (p, net_grad (values w (parameters ms)) a i)) (parameters ms)),
            net_pred (values w (parameters ms)) a)).
Proof. reflexivity. Qed.

Lemma fst_imap_pair {B} (f : nat → B) ps : (imap (λ i p, (p, f i)) ps).*1 = ps.
Proof.
  apply list_eq. intros i. rewrite list_lookup_fmap, list_lookup_imap.
  by destruct (ps !! i).
Qed.

Lemma wf_working_storage_NoDup w : wf w → NoDup (storage w <$> parameters (net_pi w)).
Proof.
  intros (_&_&_&_&Hlnd&_). unfold all_params in Hlnd. rewrite fmap_app in Hlnd.
  by apply NoDup_app in Hlnd as (_ & _ & ?).
Qed.

Lemma wf_base_storage_NoDup w : wf w → NoDup (storage w <$> parameters (net w)).
Proof.
  intros (_&_&_&_&Hlnd&_). unfold all_params in Hlnd. rewrite fmap_app in Hlnd.
  by apply NoDup_app in Hlnd as (? & _ & _).
Qed.

Lemma wf_working w p : wf w → p ∈ parameters (net_pi w) → p ∈ all_params w.
Proof. intros _ Hp. unfold all_params. rewrite elem_of_app. by right. Qed.

Lemma wf_base w p : wf w → p ∈ parameters (net w) → p ∈ all_params w.
Proof. intros _ Hp. unfold all_params. rewrite elem_of_app. by left. Qed.

(** One pass of the inner loop is one plain SGD step of the working
    parameters on the support loss; nothing else changes value. *)
Lemma inner_update_spec a w :
  wf w →
  let wps := parameters (net_pi w) in
  ∃ os h',
    let w' := set_params (λ _, os) (set_heap (λ _, h') w) in
    inner_update a w = (w', Ok tt)
    ∧ same_layout w w'
    ∧ length h' = length (heap w)
    ∧ values w' wps = sgd_pure a (values w wps)
    ∧ (∀ l, l ∉ storage w <$> wps → h' !!! l = heap w !!! l)
    ∧ (∀ q, q ∉ wps → os !!! q = params w !!! q).
Proof.
  intros Hwf wps. pose proof Hwf as (Ha&Hv&Hnd&Hl&Hlnd&Hs&Had&Hh).
  assert (Hndw : NoDup wps).
  { unfold all_params in Hnd. by apply NoDup_app in Hnd as (_ & _ & ?). }
  set (theta := values w wps).
  set (G := imap (λ i p, (p, net_grad theta a i)) wps).
  assert (HG1 : G.*1 = wps) by apply fst_imap_pair.
  destruct (zero_grad_spec wps w) as (os1 & E1 & Hl1 & Hs1 & Hg1 & Ho1).
  set (w1 := set_params (λ _, os1) w) in *.
  destruct (backward_spec (net_loss theta a) G w1)
    as (os2 & r & E2 & Hl2 & Hs2 & Ho2 & Hok2 & _).
  assert (Hhk1 : ∀ p, p ∈ wps → hooks_of w1 p = []).
  { intros p Hp. unfold hooks_of. simpl. destruct (Hs1 p) as [_ ->].
    by apply (wf_all_params w p Hwf), wf_working. }
  destruct Hok2 as [-> Hg2].
  { intros p g Hin. exists g. rewrite Hhk1; [done|].
    rewrite <- HG1. apply list_elem_of_fmap. by exists (p, g). }
  set (w2 := set_params (λ _, os2) w1) in *.
  assert (Hst2 : ∀ q, storage w2 q = storage w q).
  { intros q. unfold storage. simpl. destruct (Hs2 q) as [-> _].
    simpl. by destruct (Hs1 q) as [-> _]. }
  assert (Hfm : storage w2 <$> wps = storage w <$> wps)
    by (apply list_fmap_ext; intros; apply Hst2).
  destruct (SGD_step_spec learner_lr wps w2) as (h3 & E3 & Hl3 & Hin3 & Hout3).
  { rewrite Hfm. by apply wf_working_storage_NoDup. }
  exists os2, h3. cbn zeta. split_and!.
  - unfold inner_update. rewrite (bind_ok _ _ w w w) by reflexivity.
    rewrite (bind_ok _ _ _ _ _ (call_net_run (net_pi w) a w)).
    fold wps theta G. rewrite Hs. fold wps.
    rewrite (bind_ok _ _ _ _ _ E1), (bind_ok _ _ _ _ _ E2). exact E3.
  - repeat split; try done.
    + simpl. rewrite Hl2. simpl. by rewrite Hl1.
    + simpl. rewrite Hl3. done.
    + intros q. unfold hooks_of. simpl. destruct (Hs2 q) as [_ ->].
      simpl. by destruct (Hs1 q) as [_ ->].
  - by rewrite Hl3.
  - apply list_eq. intros i. unfold values, sgd_pure.
    rewrite list_lookup_imap, !list_lookup_fmap.
    change (theta !! i) with ((data_of w <$> wps) !! i). rewrite list_lookup_fmap.
    destruct (wps !! i) as [p|] eqn:Hi; [|done]. simpl. f_equal.
    assert (Hp : p ∈ wps) by (by eapply list_elem_of_lookup_2).
    destruct (wf_all_params w p Hwf (wf_working w p Hwf Hp)) as (Hpv & Hpl & _).
    unfold data_of at 1. simpl. change (storage _ p) with (storage w2 p).
    rewrite Hin3; [|done|by rewrite Hst2].
    unfold sgd_value, grad_of. simpl.
    rewrite (Hg2 ltac:(by rewrite HG1) p (net_grad theta a i) (net_grad theta a i)).
    + unfold grad_of. simpl. rewrite Hg1 by done. simpl.
      unfold data_of. by rewrite Hst2.
    + apply list_elem_of_lookup. exists i. unfold G.
      by rewrite list_lookup_imap, Hi.
    + simpl. by rewrite Hl1.
    + by rewrite Hhk1.
  - intros l Hl'. apply Hout3. by rewrite Hfm.
  - intros q Hq. rewrite Ho2 by (by rewrite HG1). simpl. by apply Ho1.
Qed.

Lemma base_frame_refl w : base_frame w w.
Proof. by repeat split. Qed.

Lemma base_frame_trans w1 w2 w3 :
  base_frame w1 w2 → base_frame w2 w3 → base_frame w1 w3.
Proof.
  intros (Hn&?&?&?&?&?&?&?&?&Hh&Hb) (?&?&?&?&?&?&?&?&?&Hh'&Hb').
  repeat split; try congruence.
  - etrans; [apply Hb'; by rewrite Hn|by apply Hb].
  - etrans; [apply Hb'; by rewrite Hn|by apply Hb].
Qed.

Lemma update_pi_frame w :
  wf w → ∃ w', update_pi w = (w', Ok tt) ∧ wf w' ∧ base_frame w w'.
Proof.
  intros Hwf.
  destruct (update_pi_spec w Hwf) as (os & h' & E & Hwf' & Hlen & Hsame & Hout & Hin).
  eexists. split; [exact E|]. split; [done|].
  assert (Hb : ∀ p, p ∈ parameters (net w) → os !!! p = params w !!! p).
  { intros p Hp. apply Hout. intros Hc.
    apply (wf_base_working w p p Hwf); [done| |done].
    eapply elem_of_sublist; [exact Hc|]. apply copies_snd_sublist. }
  repeat split; try done.
  - intros q. unfold hooks_of. simpl. by destruct (Hsame q) as [_ ->].
  - simpl. by apply Hb.
  - unfold data_of, storage. simpl. rewrite Hb by done.
    apply lookup_total_app_l.
    by apply (wf_all_params w p Hwf), wf_base.
Qed.

Lemma inner_update_frame a w :
  wf w →
  ∃ w', inner_update a w = (w', Ok tt) ∧ wf w' ∧ base_frame w w'
    ∧ values w' (parameters (net_pi w)) = sgd_pure a (values w (parameters (net_pi w))).
Proof.
  intros Hwf.
  destruct (inner_update_spec a w Hwf) as (os & h' & E & HL & Hlen & Hval & Hout & Hpo).
  cbn zeta in *. eexists. split; [exact E|].
  split; [by eapply wf_same_layout|]. split; [|done].
  destruct HL as (?&?&?&?&?&?&?&?&Hst&Hhk).
  repeat split; try done.
  - simpl. apply Hpo. intros Hq.
    by apply (wf_base_working w p p Hwf).
  - unfold data_of. rewrite Hst. simpl. apply Hout.
    intros (q & Heq & Hq)%list_elem_of_fmap.
    by apply (wf_base_working w p q Hwf).
Qed.

Lemma inner_loop_frame a (l : list nat) w :
  wf w →
  ∃ w', forM_ (λ _, inner_update a) l w = (w', Ok tt) ∧ wf w' ∧ base_frame w w'
    ∧ values w' (parameters (net_pi w))
      = Nat.iter (length l) (sgd_pure a) (values w (parameters (net_pi w))).
Proof.
  revert w. induction l as [|i l IH]; intros w Hwf.
  - exists w. split_and!; try done; apply base_frame_refl.
  - destruct (inner_update_frame a w Hwf) as (w1 & E1 & Hwf1 & Hf1 & Hv1).
    destruct (IH w1 Hwf1) as (w2 & E2 & Hwf2 & Hf2 & Hv2).
    exists w2. split_and!; try done.
    + cbn [forM_]. by rewrite (bind_ok _ _ _ _ _ E1).
    + by eapply base_frame_trans.
    + assert (Hpi : net_pi w1 = net_pi w) by apply Hf1.
      rewrite Hpi in Hv2. rewrite Hv2, Hv1. cbn [length].
      by rewrite Nat.iter_succ_r.
Qed.

Lemma autograd_grad_leaves v G w :
  NoDup G.*1 → autograd_grad (mkLoss _ v G) (G.*1) w = (w, Ok G.*2).
Proof.
  intros Hnd. unfold autograd_grad. simpl.
  assert (H : ∀ G', (∀ e, e ∈ G' → e ∈ G) →
    mapM (λ p, match list_find (λ e : pid * Tensor, e.1 = p) G with
               | Some (_, (_, g)) => ret g
               | None => raise RuntimeError
               end) (G'.*1) w = (w, Ok G'.*2)); [|by apply H].
  induction G' as [|[p g] G' IH]; intros Hsub; [done|].
  simpl.
  destruct (list_find (λ e : pid * Tensor, e.1 = p) G) as [[i [p' g']]|] eqn:Hf.
  - apply list_find_Some in Hf as (Hi & Hp & _). simpl in Hp. subst p'.
    assert ((p, g') = (p, g)) as [= ->].
    { apply (NoDup_fmap_elem_inj fst G); [done| | |done].
      - by eapply list_elem_of_lookup_2.
      - apply Hsub. by left. }
    assert (Hsub' : ∀ e, e ∈ G' → e ∈ G) by (intros e He; apply Hsub; by right).
    unfold bind at 1. unfold ret at 1. by rewrite (bind_ok _ _ _ _ _ (IH Hsub')).
  - exfalso. apply list_find_None in Hf. rewrite Forall_forall in Hf.
    apply (Hf (p, g)); [|done]. apply Hsub. by left.
Qed.

Lemma Learner_forward_spec support query n w :
  wf w →
  let theta := adapted support n w in
  ∃ w' loss,
    Learner_forward support query n w
    = (w', Ok (loss, grad_vector query theta, scores_of query theta))
    ∧ wf w' ∧ base_frame w w'
    ∧ values w' (parameters (net_pi w)) = theta
    ∧ loss_value loss = net_loss theta query.
Proof.
  intros Hwf theta.
  destruct (update_pi_frame w Hwf) as (w1 & E1 & Hwf1 & Hf1).
  assert (Hpi1 : net_pi w1 = net_pi w) by apply Hf1.
  destruct (inner_loop_frame support (range n) w1 Hwf1) as (w2 & E2 & Hwf2 & Hf2 & Hv2).
  assert (Hpi2 : net_pi w2 = net_pi w1) by apply Hf2.
  rewrite Hpi1 in Hv2.
  assert (Hth : values w2 (parameters (net_pi w)) = theta).
  { rewrite Hv2. unfold theta, adapted, range. rewrite length_seq. by rewrite E1. }
  set (G := imap (λ i p, (p, net_grad theta query i)) (parameters (net_pi w))).
  assert (HG1 : G.*1 = parameters (net_pi w)) by apply fst_imap_pair.
  assert (HG2 : G.*2 = grad_vector query theta).
  { unfold G, grad_vector. rewrite <- Hth. unfold values.
    rewrite fmap_imap, imap_fmap. by apply imap_ext. }
  assert (HGnd : NoDup G.*1).
  { rewrite HG1. destruct Hwf as (_&_&Hnd&_).
    unfold all_params in Hnd. by apply NoDup_app in Hnd as (_ & _ & ?). }
  exists w2, (mkLoss _ (net_loss theta query) G). split_and!; try done.
  - unfold Learner_forward.
    rewrite (bind_ok _ _ _ _ _ E1), (bind_ok _ _ _ _ _ E2).
    rewrite (bind_ok _ _ w2 w2 w2) by reflexivity.
    rewrite (bind_ok _ _ _ _ _ (call_net_run (net_pi w2) query w2)).
    rewrite Hpi2, Hpi1, Hth. fold G.
    rewrite <- HG1 at 1.
    rewrite (bind_ok _ _ _ _ _ (autograd_grad_leaves _ G w2 HGnd)).
    by rewrite HG2.
  - by eapply base_frame_trans.
Qed.

(** ** The episode loops of [MetaLearner] *)

Lemma same_shape_parameters mf mt :
  same_shape mf mt → length (module_parameters mf) = length (module_parameters mt).
Proof.
  intros (_ & Hw & Hb & _). unfold module_parameters. rewrite !length_app. f_equal.
  - destruct (weight mf), (weight mt); try done.
    + by destruct (proj2 Hw (ltac:(eauto))) as [? ?].
    + by destruct (proj1 Hw (ltac:(eauto))) as [? ?].
  - destruct (bias mf), (bias mt); try done.
    + by destruct (proj2 Hb (ltac:(eauto))) as [? ?].
    + by destruct (proj1 Hb (ltac:(eauto))) as [? ?].
Qed.

Lemma wf_param_count w :
  wf w → length (parameters (net w)) = length (parameters (net_pi w)).
Proof.
  intros (Ha & _). unfold parameters.
  induction Ha as [|mf mt ms ms' Hs _ IH]; [done|].
  rewrite !bind_cons, !length_app, IH. f_equal. by apply same_shape_parameters.
Qed.

Lemma slice_run x y i w : slice x y i w = (w, slice_result x y i).
Proof.
  unfold slice, slice_result, bind, lift, subscript, ret.
  destruct (x_atom x !! i); [|done]. destruct (x_bond x !! i); [|done].
  destruct (x_atom_index x !! i); [|done]. destruct (x_bond_index x !! i); [|done].
  destruct (x_mask x !! i); [|done]. by destruct (y !! i).
Qed.

Lemma slice_result_ok x y i :
  i < length (x_atom x) → i < length (x_bond x) → i < length (x_atom_index x) →
  i < length (x_bond_index x) → i < length (x_mask x) → i < length y →
  ∃ a, slice_result x y i = Ok a.
Proof.
  intros H1 H2 H3 H4 H5 H6. unfold slice_result.
  destruct (lookup_lt_is_Some_2 _ _ H1) as [? ->].
  destruct (lookup_lt_is_Some_2 _ _ H2) as [? ->].
  destruct (lookup_lt_is_Some_2 _ _ H3) as [? ->].
  destruct (lookup_lt_is_Some_2 _ _ H4) as [? ->].
  destruct (lookup_lt_is_Some_2 _ _ H5) as [? ->].
  destruct (lookup_lt_is_Some_2 _ _ H6) as [? ->]. eauto.
Qed.

Lemma shaped_sliceable sx sy qx qy i :
  shaped sx sy qx qy → i < length sy →
  sliceable (cast_inputs sx) sy (cast_inputs qx) qy i.
Proof.
  intros (?&?&?&?&?&?&?&?&?&?&?) Hi.
  destruct (slice_result_ok (cast_inputs sx) sy i) as [sa Hs];
    simpl; rewrite ?length_fmap; try lia.
  destruct (slice_result_ok (cast_inputs qx) qy i) as [qa Hq];
    simpl; rewrite ?length_fmap; try lia.
  by exists sa, qa.
Qed.

Lemma train_episode_run sx sy qx qy sum rocs losses i w :
  train_episode sx sy qx qy (sum, rocs, losses) i w
  = match episode sx sy qx qy i w with
    | (w', Ok (loss, g, sc)) =>
        (w', Ok (accumulate sum g, rocs ++ [roc_score sc], losses ++ [loss]))
    | (w', Raise e) => (w', Raise e)
    end.
Proof.
  unfold train_episode, episode, bind, get, ret.
  rewrite slice_run. destruct (slice_result sx sy i) as [sa|e]; [|done].
  rewrite slice_run. destruct (slice_result qx qy i) as [qa|e]; [|done].
  destruct (Learner_forward sa qa (num_updates w) w) as [w' [[[loss g] sc]|e]]; done.
Qed.

Lemma eval_episode_run sx sy qx qy st i w :
  eval_episode sx sy qx qy st i w
  = match episode sx sy qx qy i w with
    | (w', Ok (loss, _, sc)) =>
        (w', Ok (mkEvalAcc (accs st ++ [acc sc]) (ev_losses st ++ [loss])
                   (pre_scores st ++ [pre_score sc]) (recall_scores st ++ [recall_score sc])
                   (mcc_scores st ++ [mcc_score sc]) (roc_scores st ++ [roc_score sc])
                   (f1_scores st ++ [f1_score sc])))
    | (w', Raise e) => (w', Raise e)
    end.
Proof.
  unfold eval_episode, episode, bind, get, ret.
  rewrite slice_run. destruct (slice_result sx sy i) as [sa|e]; [|done].
  rewrite slice_run. destruct (slice_result qx qy i) as [qa|e]; [|done].
  destruct (Learner_forward sa qa (num_updates w) w) as [w' [[[loss g] sc]|e]]; done.
Qed.

Lemma episode_spec sx sy qx qy i w :
  wf w → sliceable sx sy qx qy i →
  ∃ w' r, episode sx sy qx qy i w = (w', Ok r)
    ∧ wf w' ∧ base_frame w w'
    ∧ length r.1.2 = length (parameters (net_pi w)).
Proof.
  intros Hwf (sa & qa & Hs & Hq).
  destruct (Learner_forward_spec sa qa (num_updates w) w Hwf)
    as (w' & loss & E & Hwf' & Hf & Hv & _).
  eexists _, _. split_and!; [|done|done|].
  - unfold episode. rewrite (bind_ok _ _ w w sa) by (by rewrite slice_run, Hs).
    rewrite (bind_ok _ _ w w qa) by (by rewrite slice_run, Hq).
    rewrite (bind_ok _ _ w w w) by reflexivity. exact E.
  - simpl. unfold grad_vector. rewrite length_imap, <- Hv.
    unfold values. by rewrite length_fmap.
Qed.

Lemma episodes_run_spec sx sy qx qy idxs w :
  wf w → (∀ i, i ∈ idxs → sliceable sx sy qx qy i) →
  wf (episodes_run sx sy qx qy idxs w).1
  ∧ base_frame w (episodes_run sx sy qx qy idxs w).1
  ∧ length (episodes_run sx sy qx qy idxs w).2 = length idxs
  ∧ Forall (λ r, length r.1.2 = length (parameters (net_pi w)))
      (episodes_run sx sy qx qy idxs w).2.
Proof.
  revert w. induction idxs as [|i idxs IH]; intros w Hwf Hsl.
  - simpl. split_and!; try done; apply base_frame_refl.
  - destruct (episode_spec sx sy qx qy i w Hwf) as (w1 & r & E & Hwf1 & Hf1 & Hlen);
      [apply Hsl; by left|].
    destruct (IH w1 Hwf1) as (Hwf2 & Hf2 & Hl2 & Hall2);
      [intros j Hj; apply Hsl; by right|].
    simpl. rewrite E.
    destruct (episodes_run sx sy qx qy idxs w1) as [w2 rs]. simpl in *.
    split_and!; try done.
    + by eapply base_frame_trans.
    + by rewrite Hl2.
    + constructor; [done|].
      assert (Hpi : net_pi w1 = net_pi w) by apply Hf1. by rewrite <- Hpi.
Qed.

Lemma train_loop_run sx sy qx qy idxs sum rocs losses w :
  wf w → (∀ i, i ∈ idxs → sliceable sx sy qx qy i) →
  let run := episodes_run sx sy qx qy idxs w in
  foldM (train_episode sx sy qx qy) (sum, rocs, losses) idxs w
  = (run.1, Ok (foldl accumulate sum ((λ r, r.1.2) <$> run.2),
                rocs ++ ((λ r, roc_score r.2) <$> run.2),
                losses ++ ((λ r, r.1.1) <$> run.2))).
Proof.
  revert sum rocs losses w. induction idxs as [|i idxs IH];
    intros sum rocs losses w Hwf Hsl.
  - simpl. by rewrite !app_nil_r.
  - destruct (episode_spec sx sy qx qy i w Hwf) as (w1 & [[loss g] sc] & E & Hwf1 & _);
      [apply Hsl; by left|].
    cbn [foldM]. unfold bind at 1. rewrite train_episode_run, E.
    rewrite IH; [|done|intros j Hj; apply Hsl; by right].
    cbn [episodes_run]. rewrite E.
    destruct (episodes_run sx sy qx qy idxs w1) as [w2 rs]. simpl.
    by rewrite <- !app_assoc.
Qed.

Lemma eval_loop_run sx sy qx qy idxs st w :
  wf w → (∀ i, i ∈ idxs → sliceable sx sy qx qy i) →
  let run := episodes_run sx sy qx qy idxs w in
  foldM (eval_episode sx sy qx qy) st idxs w
  = (run.1, Ok (mkEvalAcc
        (accs st ++ ((λ r, acc r.2) <$> run.2))
        (ev_losses st ++ ((λ r, r.1.1) <$> run.2))
        (pre_scores st ++ ((λ r, pre_score r.2) <$> run.2))
        (recall_scores st ++ ((λ r, recall_score r.2) <$> run.2))
        (mcc_scores st ++ ((λ r, mcc_score r.2) <$> run.2))
        (roc_scores st ++ ((λ r, roc_score r.2) <$> run.2))
        (f1_scores st ++ ((λ r, f1_score r.2) <$> run.2)))).
Proof.
  revert st w. induction idxs as [|i idxs IH]; intros st w Hwf Hsl.
  - simpl. rewrite !app_nil_r. by destruct st.
  - destruct (episode_spec sx sy qx qy i w Hwf) as (w1 & [[loss g] sc] & E & Hwf1 & _);
      [apply Hsl; by left|].
    cbn [foldM]. unfold bind at 1. rewrite eval_episode_run, E.
    rewrite IH; [|done|intros j Hj; apply Hsl; by right].
    cbn [episodes_run]. rewrite E.
    destruct (episodes_run sx sy qx qy idxs w1) as [w2 rs]. simpl.
    by rewrite <- !app_assoc.
Qed.

(** ** Accumulation *)

Lemma accumulate_from s0 gs :
  (∀ g, g ∈ gs → length g = length s0) →
  ∃ s, foldl accumulate (Some s0) gs = Some s
    ∧ length s = length s0
    ∧ ∀ i, i < length s0 → s !!! i = foldl torch_add (s0 !!! i) (column i gs).
Proof.
  revert s0. induction gs as [|g gs IH]; intros s0 Hlen.
  - exists s0. by split_and!.
  - assert (Hg : length g = length s0) by (apply Hlen; by left).
    assert (Hz : length (zip_with torch_add s0 g) = length s0).
    { rewrite length_zip_with. lia. }
    destruct (IH (zip_with torch_add s0 g)) as (s & E & Hl & Hs).
    { intros g' Hg'. rewrite Hz. apply Hlen. by right. }
    exists s. split_and!.
    + exact E.
    + by rewrite Hl.
    + intros i Hi. rewrite Hs by (by rewrite Hz). simpl. f_equal.
      apply list_lookup_total_correct. rewrite lookup_zip_with.
      destruct (lookup_lt_is_Some_2 s0 i Hi) as [a Ha].
      destruct (lookup_lt_is_Some_2 g i ltac:(lia)) as [b Hb].
      rewrite Ha, Hb. simpl.
      by rewrite (list_lookup_total_correct _ _ _ Ha), (list_lookup_total_correct _ _ _ Hb).
Qed.

Lemma accumulate_sum g1 gs :
  (∀ g, g ∈ gs → length g = length g1) →
  ∃ s, foldl accumulate None (g1 :: gs) = Some s
    ∧ length s = length g1
    ∧ ∀ i, i < length g1 → s !!! i = foldl torch_add (g1 !!! i) (column i gs).
Proof. apply accumulate_from. Qed.

(** ** [MetaLearner.forward] and [MetaLearner.pred] *)

Lemma wf_base_NoDup w : wf w → NoDup (parameters (net w)).
Proof.
  intros (_&_&Hnd&_). unfold all_params in Hnd. by apply NoDup_app in Hnd as (? & _ & _).
Qed.

Lemma write_grads_wf dl l w :
  wf w → (graph dl).*1 = parameters (net w) →
  length (parameters (net w)) ≤ length l →
  ∃ w', write_grads dl (Some l) w = (w', Ok tt)
    ∧ wf w' ∧ same_layout w w'
    ∧ length (heap w') = length (heap w)
    ∧ (∀ i p, parameters (net w) !! i = Some p →
         grad_of w' p = Some (l !!! i)
         ∧ data_of w' p = (adam_result w p (l !!! i)).1
         ∧ adam_state w' !! p = Some (adam_result w p (l !!! i)).2)
    ∧ (∀ q, q ∉ parameters (net w) → params w' !!! q = params w !!! q
                                      ∧ adam_state w' !! q = adam_state w !! q)
    ∧ (∀ loc, loc ∉ storage w <$> parameters (net w) → heap w' !!! loc = heap w !!! loc).
Proof.
  intros Hwf Hleaves Hlen.
  destruct (write_grads_ok dl l w) as (w' & E & HL & Hrest); try done.
  - apply Hwf.
  - by apply wf_base_NoDup.
  - intros p Hp. by apply (wf_all_params w p Hwf), wf_base.
  - intros p Hp. by apply (wf_all_params w p Hwf), wf_base.
  - by apply wf_base_storage_NoDup.
  - intros p Hp. by apply (wf_all_params w p Hwf), wf_base.
  - exists w'. split_and!; try done; try apply Hrest. by eapply wf_same_layout.
Qed.

Lemma net_forward_run a w :
  net_forward a w
  = (w, Ok (mkLoss _ (net_loss (values w (parameters (net w))) a)
              (imap (λ i p, (p, net_grad (values w (parameters (net w))) a i))
                 (parameters (net w))),
            net_pred (values w (parameters (net w))) a)).
Proof. reflexivity. Qed.

Lemma adam_result_frame w w1 p g :
  base_frame w w1 → p ∈ parameters (net w) → adam_result w1 p g = adam_result w p g.
Proof.
  intros (_&_&_&_&Hst&_&Hlr&_&_&_&Hb) Hp. unfold adam_result.
  destruct (Hb p Hp) as [_ ->]. by rewrite Hst, Hlr.
Qed.

Lemma MetaLearner_forward_spec sx sy qx qy w :
  wf w → shaped sx sy qx qy → 0 < length sy →
  let run := episodes_run (cast_inputs sx) sy (cast_inputs qx) qy (seq 0 (length sy)) w in
  ∃ w' sum s0 dl pred,
    foldl accumulate None ((λ r, r.1.2) <$> run.2) = Some sum
    ∧ length sum = length (parameters (net w))
    ∧ slice_result (cast_inputs sx) sy 0 = Ok s0
    ∧ net_forward s0 run.1 = (run.1, Ok (dl, pred))
    ∧ write_grads dl (Some sum) run.1 = (w', Ok tt)
    ∧ MetaLearner_forward sx sy qx qy w
      = (w', Ok ((λ r, r.1.1) <$> run.2, (λ r, roc_score r.2) <$> run.2))
    ∧ wf w' ∧ base_frame w run.1 ∧ same_layout run.1 w'
    ∧ (∀ i p, parameters (net w) !! i = Some p →
         grad_of w' p = Some (sum !!! i)
         ∧ data_of w' p = (adam_result w p (sum !!! i)).1
         ∧ adam_state w' !! p = Some (adam_result w p (sum !!! i)).2).
Proof.
  intros Hwf Hsh Hk run.
  assert (Hsl : ∀ i, i ∈ seq 0 (length sy) →
            sliceable (cast_inputs sx) sy (cast_inputs qx) qy i).
  { intros i Hi. apply shaped_sliceable; [done|]. apply elem_of_seq in Hi. lia. }
  destruct (episodes_run_spec _ _ _ _ _ w Hwf Hsl) as (Hwf1 & Hf1 & Hlrun & Hall).
  fold run in Hwf1, Hf1, Hlrun, Hall.
  pose proof (train_loop_run _ _ _ _ _ None [] [] w Hwf Hsl) as Eloop.
  cbn zeta in Eloop. fold run in Eloop.
  rewrite length_seq in Hlrun.
  destruct (run.2) as [|[[loss1 g1] sc1] rs] eqn:Hrun; [simpl in Hlrun; lia|].
  apply Forall_cons in Hall as [Hg1 Hall]. simpl in Hg1.
  destruct (accumulate_sum g1 ((λ r, r.1.2) <$> rs)) as (sum & Esum & Hlsum & _).
  { intros g (r & -> & Hr)%list_elem_of_fmap. rewrite Hg1.
    rewrite Forall_forall in Hall. by apply Hall. }
  destruct (shaped_sliceable sx sy qx qy 0 Hsh Hk) as (s0 & _ & Hs0 & _).
  assert (Hn1 : net run.1 = net w) by apply Hf1.
  destruct (write_grads_wf
              (mkLoss _ (net_loss (values run.1 (parameters (net run.1))) s0)
                 (imap (λ i p, (p, net_grad (values run.1 (parameters (net run.1))) s0 i))
                    (parameters (net run.1)))) sum run.1)
    as (w' & Ewg & Hwf' & HL & _ & Hres & _); [done|apply fst_imap_pair| |].
  { rewrite Hn1, Hlsum, Hg1. by rewrite wf_param_count. }
  eexists w', sum, s0, _, _. split_and!; try done.
  - rewrite Hlsum, Hg1. by rewrite wf_param_count.
  - apply net_forward_run.
  - unfold MetaLearner_forward. cbn zeta.
    assert (Esum' : foldl accumulate None
                      ((λ r : Loss * list Tensor * Scores, r.1.2) <$> (loss1, g1, sc1) :: rs)
                    = Some sum) by exact Esum.
    rewrite (bind_ok _ _ _ _ _ Eloop).
    rewrite (bind_ok _ _ _ _ s0) by (by rewrite slice_run, Hs0).
    rewrite (bind_ok _ _ _ _ _ (net_forward_run s0 run.1)). cbn beta iota.
    rewrite Esum'.
    rewrite (bind_ok _ _ _ _ _ Ewg). reflexivity.
  - intros i p Hi. assert (Hp : p ∈ parameters (net w)) by (by eapply list_elem_of_lookup_2).
    rewrite <- (adam_result_frame w run.1 p _ Hf1 Hp). apply Hres. by rewrite Hn1.
Qed.

Lemma MetaLearner_pred_spec sx sy qx qy w :
  wf w → shaped sx sy qx qy →
  let run := episodes_run (cast_inputs sx) sy (cast_inputs qx) qy (seq 0 (length sy)) w in
  MetaLearner_pred sx sy qx qy w
  = (run.1, Ok ((λ r, r.1.1) <$> run.2,
                np_mean ((λ r, acc r.2) <$> run.2),
                np_mean ((λ r, pre_score r.2) <$> run.2),
                np_mean ((λ r, recall_score r.2) <$> run.2),
                np_mean ((λ r, mcc_score r.2) <$> run.2),
                np_mean ((λ r, roc_score r.2) <$> run.2),
                np_mean ((λ r, f1_score r.2) <$> run.2)))
  ∧ wf run.1 ∧ base_frame w run.1 ∧ length run.2 = length sy.
Proof.
  intros Hwf Hsh run.
  assert (Hsl : ∀ i, i ∈ seq 0 (length sy) →
            sliceable (cast_inputs sx) sy (cast_inputs qx) qy i).
  { intros i Hi. apply shaped_sliceable; [done|]. apply elem_of_seq in Hi. lia. }
  destruct (episodes_run_spec _ _ _ _ _ w Hwf Hsl) as (Hwf1 & Hf1 & Hlrun & _).
  rewrite length_seq in Hlrun.
  split_and!; try done.
  unfold MetaLearner_pred. cbn zeta.
  by rewrite (bind_ok _ _ _ _ _ (eval_loop_run _ _ _ _ _ _ w Hwf Hsl)).
Qed.

(** ** Construction establishes well-formedness *)

Lemma fresh_store_length w : fresh_store w → length (params w) = length (heap w).
Proof. intros ->. by rewrite length_fmap, length_seq. Qed.

Lemma new_param_spec init w :
  fresh_store w →
  ∃ w', new_param init w = (w', Ok (length (heap w)))
    ∧ fresh_store w' ∧ length (heap w') = S (length (heap w)).
Proof.
  intros Hf. eexists. split_and!.
  - unfold new_param. by rewrite (fresh_store_length w Hf).
  - unfold fresh_store in *. simpl. rewrite length_app. simpl.
    rewrite Nat.add_1_r, seq_S, fmap_app. simpl. by rewrite <- Hf.
  - simpl. rewrite length_app. simpl. lia.
Qed.

Lemma new_attr_spec init b w :
  fresh_store w →
  ∃ w' o, new_attr init b w = (w', Ok o)
    ∧ fresh_store w'
    ∧ (is_Some o ↔ b = true)
    ∧ option_list o = seq (length (heap w)) (length (heap w') - length (heap w))
    ∧ length (heap w) ≤ length (heap w').
Proof.
  intros Hf. destruct b; simpl.
  - destruct (new_param_spec init w Hf) as (w' & E & Hf' & Hl).
    exists w', (Some (length (heap w))). split_and!; try done.
    + by rewrite (bind_ok _ _ _ _ _ E).
    + rewrite Hl. by replace (S (length (heap w)) - length (heap w)) with 1 by lia.
    + lia.
  - exists w, None.
    split_and!; try done; try (by rewrite Nat.sub_diag).
Qed.

Lemma seq_app_sub (a b c : nat) :
  a ≤ b → b ≤ c → seq a (b - a) ++ seq b (c - b) = seq a (c - a).
Proof.
  intros Hab Hbc. replace (c - a) with ((b - a) + (c - b)) by lia.
  rewrite seq_app. do 2 f_equal. lia.
Qed.

Lemma new_module_spec init s w :
  fresh_store w →
  ∃ w' m, new_module init s w = (w', Ok m)
    ∧ fresh_store w' ∧ built s m
    ∧ module_parameters m = seq (length (heap w)) (length (heap w') - length (heap w))
    ∧ length (heap w) ≤ length (heap w').
Proof.
  intros Hf.
  destruct (new_attr_spec init (ls_weight s) w Hf) as (w1 & wt & E1 & Hf1 & Hw & Hp1 & Hl1).
  destruct (new_attr_spec init (ls_bias s) w1 Hf1) as (w2 & bs & E2 & Hf2 & Hb & Hp2 & Hl2).
  exists w2, (mkModule (ls_kind s) wt bs). split_and!; try done.
  - unfold new_module. by rewrite (bind_ok _ _ _ _ _ E1), (bind_ok _ _ _ _ _ E2).
  - unfold module_parameters. simpl. rewrite Hp1, Hp2. by apply seq_app_sub.
  - lia.
Qed.

Lemma net_cls_spec init arch w :
  fresh_store w →
  ∃ w' ms, net_cls init arch w = (w', Ok ms)
    ∧ fresh_store w' ∧ Forall2 built arch ms
    ∧ parameters ms = seq (length (heap w)) (length (heap w') - length (heap w))
    ∧ length (heap w) ≤ length (heap w').
Proof.
  revert w. induction arch as [|s arch IH]; intros w Hf.
  - exists w, []. split_and!; try done. by rewrite Nat.sub_diag.
  - destruct (new_module_spec init s w Hf) as (w1 & m & E1 & Hf1 & Hb & Hp1 & Hl1).
    destruct (IH w1 Hf1) as (w2 & ms & E2 & Hf2 & Hbs & Hp2 & Hl2).
    exists w2, (m :: ms). split_and!; try done.
    + unfold net_cls in *. cbn [mapM].
      by rewrite (bind_ok _ _ _ _ _ E1), (bind_ok _ _ _ _ _ E2).
    + by constructor.
    + unfold parameters in *. rewrite bind_cons, Hp1, Hp2. by apply seq_app_sub.
    + lia.
Qed.

Lemma built_same_shape arch ms ms' :
  resettable arch → Forall2 built arch ms → Forall2 built arch ms' →
  Forall2 same_shape ms ms'.
Proof.
  intros Hr H1. revert ms'. induction H1 as [|s m arch ms Hb _ IH]; intros ms' H2.
  - by apply Forall2_nil_inv_l in H2 as ->.
  - apply Forall2_cons_inv_l in H2 as (m' & ms'' & Hb' & H2 & ->).
    apply Forall_cons in Hr as [Hs Hr].
    constructor; [|by apply IH].
    destruct Hb as (Hk & Hw & Hbi), Hb' as (Hk' & Hw' & Hbi').
    split_and!.
    + congruence.
    + by rewrite Hw, Hw'.
    + by rewrite Hbi, Hbi'.
    + rewrite Hk'. intros Hc. apply Hw'. by apply Hs.
Qed.

Lemma MetaLearner_init_spec init arch lr n :
  resettable arch →
  let w := MetaLearner_init init arch lr n in
  wf w
  ∧ adam_params w = parameters (net w)
  ∧ sgd_params w = parameters (net_pi w)
  ∧ adam_state w = ∅ ∧ meta_lr w = lr ∧ num_updates w = n
  ∧ Forall2 built arch (net w) ∧ Forall2 built arch (net_pi w).
Proof.
  intros Hr. unfold MetaLearner_init.
  destruct (net_cls_spec init arch (empty_world lr n)) as (w1 & ms & E1 & Hf1 & Hb1 & Hp1 & Hl1);
    [done|].
  destruct (net_cls_spec init arch w1 Hf1) as (w2 & ms' & E2 & Hf2 & Hb2 & Hp2 & Hl2).
  rewrite E1, E2. cbn zeta. simpl in Hp1. rewrite Nat.sub_0_r in Hp1.
  split_and!; try done.
  assert (Hall : parameters ms ++ parameters ms' = seq 0 (length (heap w2))).
  { rewrite Hp1, Hp2. rewrite <- (Nat.sub_0_r (length (heap w1))) at 1.
    rewrite seq_app_sub by lia. by rewrite Nat.sub_0_r. }
  assert (Hst : ∀ p, p < length (heap w2) → params w2 !!! p = mkParam _ p None []).
  { intros p Hp. apply list_lookup_total_correct.
    rewrite Hf2, list_lookup_fmap, lookup_seq_lt by done. done. }
  unfold wf, all_params. simpl. rewrite Hall.
  split_and!; try done.
  - by eapply built_same_shape.
  - apply Forall_forall. intros p Hp%elem_of_seq.
    rewrite (fresh_store_length w2 Hf2). lia.
  - apply NoDup_seq.
  - apply Forall_forall. intros p Hp%elem_of_seq. unfold storage. simpl.
    rewrite Hst by lia. simpl. lia.
  - erewrite (list_fmap_ext _ id).
    + rewrite list_fmap_id. apply NoDup_seq.
    + intros i p Hp. apply lookup_seq in Hp as [-> Hp]. unfold storage. simpl.
      by rewrite Hst by lia.
  - apply Forall_forall. intros p Hp%elem_of_seq. unfold hooks_of. simpl.
    by rewrite Hst by lia.
Qed.

(** The two exits of [write_grads]: either it returns and every hook table
    is as before the call, or [backward] raised and every base parameter
    still carries the hook registered on it; the hooks of the other
    parameters are as before in both cases. *)
Lemma write_grads_exit dl sum w :
  wf w →
  ∃ w' r, write_grads dl sum w = (w', r)
    ∧ (∀ q, q ∉ parameters (net w) → hooks_of w' q = hooks_of w q)
    ∧ ((r = Ok tt ∧ ∀ q, hooks_of w' q = hooks_of w q)
       ∨ (∃ e, r = Raise e
            ∧ ∀ i p, parameters (net w) !! i = Some p →
                hooks_of w' p = [(next_hook w + i, closure sum i)])).
Proof.
  intros Hwf. set (bps := parameters (net w)).
  assert (Hadam : adam_params w = bps) by apply Hwf.
  assert (Hnd : NoDup bps) by (by apply wf_base_NoDup).
  assert (Hval : ∀ p, p ∈ bps → p < length (params w)).
  { intros p Hp. by apply (wf_all_params w p Hwf), wf_base. }
  assert (Hhk : ∀ p, p ∈ bps → hooks_of w p = []).
  { intros p Hp. by apply (wf_all_params w p Hwf), wf_base. }
  destruct (write_grads_prefix dl sum w Hadam Hnd Hval)
    as (os2 & E & Hl2 & Hst2 & Hh2 & Ho2).
  fold bps in E, Hh2, Ho2. cbn zeta in *.
  set (w2 := set_params (λ _, os2) (set_next_hook (next_hook w + length bps) w)) in *.
  set (hs := imap (λ i p, (p, next_hook w + i)) bps) in *.
  destruct dl as [v G].
  destruct (backward_spec v G w2) as (os3 & r & E3 & Hl3 & Hs3 & _).
  set (w3 := set_params (λ _, os3) w2) in *.
  assert (Hhk3 : ∀ q, hooks_of w3 q = hooks_of w2 q).
  { intros q. unfold hooks_of. simpl. by destruct (Hs3 q) as [_ ->]. }
  assert (Hout2 : ∀ q, q ∉ bps → hooks_of w2 q = hooks_of w q).
  { intros q Hq. unfold hooks_of. by rewrite Ho2. }
  destruct r as [[]|e].
  - assert (Hst3 : ∀ q, storage w3 q = storage w q).
    { intros q. rewrite <- Hst2. unfold storage. simpl. by destruct (Hs3 q) as [-> _]. }
    assert (Hfm3 : storage w3 <$> bps = storage w <$> bps)
      by (apply list_fmap_ext; intros; apply Hst3).
    destruct (Adam_loop_spec bps w3) as (h4 & st4 & E4 & _);
      [done|rewrite Hfm3; by apply wf_base_storage_NoDup|].
    set (w4 := set_adam_state (λ _, st4) (set_heap (λ _, h4) w3)) in *.
    destruct (remove_loop hs w4) as (os5 & E5 & Hl5 & Hs5 & Hh5).
    { intros h (i & p & Hi & ->)%elem_of_handles. simpl. rewrite Hl3. simpl.
      rewrite Hl2. apply Hval. by eapply list_elem_of_lookup_2. }
    set (w5 := set_params (λ _, os5) w4) in *.
    assert (Hhk5 : ∀ q, hooks_of w5 q = hooks_of w q).
    { intros q. unfold hooks_of at 1. simpl. rewrite Hh5.
      change (hooks_of w4 q) with (hooks_of w3 q). rewrite Hhk3.
      destruct (decide (q ∈ bps)) as [Hq|Hq].
      - apply list_elem_of_lookup in Hq as [i Hi].
        destruct (Hh2 i q Hi) as [-> _].
        rewrite Hhk by (by eapply list_elem_of_lookup_2). simpl.
        rewrite filter_cons_False; [done|]. simpl. intros Hn. apply Hn.
        apply elem_of_handles. eauto.
      - rewrite Hout2 by done. apply filter_all.
        intros e _ (i & p & Hi & [= -> _])%elem_of_handles.
        apply Hq. by eapply list_elem_of_lookup_2. }
    exists w5, (Ok tt). split_and!.
    + assert (E4' : Adam_step w3 = (w4, Ok tt)).
      { unfold Adam_step. rewrite (bind_ok _ _ w3 w3 w3) by reflexivity.
        change (adam_params w3) with (adam_params w). rewrite Hadam. exact E4. }
      rewrite E, (bind_ok _ _ _ _ _ E3), (bind_ok _ _ _ _ _ E4'). exact E5.
    + intros q _. apply Hhk5.
    + left. by split.
  - exists w3, (Raise e). split_and!.
    + rewrite E. by rewrite (bind_raise _ _ _ _ _ E3).
    + intros q Hq. by rewrite Hhk3, Hout2.
    + right. exists e. split; [done|]. intros i p Hi. rewrite Hhk3.
      destruct (Hh2 i p Hi) as [-> _].
      by rewrite Hhk by (by eapply list_elem_of_lookup_2).
Qed.


(** ** Modules and the copies of [update_pi] *)






(** Any number of resets keeps the learner well formed and the base
    network, the module lists and the optimizers as they are. *)
Lemma update_pi_iter (k : nat) w :
  wf w →
  wf (Nat.iter k (λ w, (update_pi w).1) w)
  ∧ base_frame w (Nat.iter k (λ w, (update_pi w).1) w).
Proof.
  intros Hwf. induction k as [|k [IHwf IHf]]; simpl.
  - split; [done|apply base_frame_refl].
  - destruct (update_pi_frame _ IHwf) as (w' & E & Hwf' & Hf'). rewrite E. simpl.
    split; [done|]. by eapply base_frame_trans.
Qed.

(** * The claims *)

(** C1: in [write_grads], called with a dummy loss of the base network and
    accumulated gradients [l], for the base parameter at every position [i]
    the gradient left in [.grad] for the optimizer step is [l[i]], whatever
    gradient the dummy backward pass computed for it, and the parameter and
    its Adam state after the step are the Adam rule applied to the old
    value and to [l[i]]. *)
Theorem C1_write_grads_substitutes_accumulated dl l w :
  wf w → (graph dl).*1 = parameters (net w) →
  length (parameters (net w)) ≤ length l →
  ∃ w', write_grads dl (Some l) w = (w', Ok tt)
    ∧ ∀ i p, parameters (net w) !! i = Some p →
        grad_of w' p = Some (l !!! i)
        ∧ data_of w' p = (adam_result w p (l !!! i)).1
        ∧ adam_state w' !! p = Some (adam_result w p (l !!! i)).2.
Proof.
  intros Hwf Hleaves Hlen.
  destruct (write_grads_wf dl l w Hwf Hleaves Hlen) as (w' & E & _ & _ & _ & Hg & _).
  by exists w'.
Qed.

(** C5 (amended): [write_grads] has no cleanup around its body.  When it
    returns, every hook it registered is removed and no hook remains on a
    base parameter; when the backward pass raises, the removal loop is not
    reached and every base parameter keeps the hook registered on it.  A call
    of [forward] that returns leaves no hook on any base parameter. *)
Theorem C5_hooks_removed_on_return_only dl sum w :
  wf w →
  (∃ w' r, write_grads dl sum w = (w', r)
     ∧ (r = Ok tt → ∀ p, p ∈ parameters (net w) → hooks_of w' p = [])
     ∧ (r ≠ Ok tt → ∀ i p, parameters (net w) !! i = Some p →
          hooks_of w' p = [(next_hook w + i, closure sum i)]))
  ∧ ∀ sx sy qx qy, shaped sx sy qx qy → 0 < length sy →
      ∃ w' r, MetaLearner_forward sx sy qx qy w = (w', Ok r)
        ∧ ∀ p, p ∈ parameters (net w') → hooks_of w' p = [].
Proof.
  intros Hwf. split.
  - destruct (write_grads_exit dl sum w Hwf) as (w' & r & E & _ & [[-> Hh]|(e & -> & Hh)]).
    + exists w', (Ok tt). split_and!; [done| |done].
      intros _ p Hp. rewrite Hh. by apply (wf_all_params w p Hwf), wf_base.
    + exists w', (Raise e). split_and!; [done|done|]. intros _. exact Hh.
  - intros sx sy qx qy Hsh Hk.
    destruct (MetaLearner_forward_spec sx sy qx qy w Hwf Hsh Hk)
      as (w' & sum' & s0 & dl' & pred & _ & _ & _ & _ & _ & E & Hwf' & _).
    eexists w', _. split; [exact E|].
    intros p Hp. by apply (wf_all_params w' p Hwf'), wf_base.
Qed.

(** C8 (amended): there is no length check.  Accumulated gradients shorter
    than the parameter sequence make the hook of a parameter without an entry
    raise [IndexError] inside the backward pass, and no optimizer step is
    applied: no storage and no Adam state changes.  Accumulated gradients
    longer than the parameter sequence raise nothing: the step is applied
    with the entries at the positions of the parameters and the surplus is
    ignored. *)
Theorem C8_length_mismatch dl l w :
  wf w → (graph dl).*1 = parameters (net w) →
  (length l < length (parameters (net w)) →
     ∃ w', write_grads dl (Some l) w = (w', Raise IndexError)
       ∧ adam_state w' = adam_state w
       ∧ heap w' = heap w
       ∧ ∀ p, data_of w' p = data_of w p)
  ∧ (length (parameters (net w)) < length l →
     ∃ w', write_grads dl (Some l) w = (w', Ok tt)
       ∧ ∀ i p, parameters (net w) !! i = Some p →
           grad_of w' p = Some (l !!! i)
           ∧ data_of w' p = (adam_result w p (l !!! i)).1
           ∧ adam_state w' !! p = Some (adam_result w p (l !!! i)).2).
Proof.
  intros Hwf Hleaves. split; intros Hlen.
  - destruct (write_grads_short dl l w) as (w' & E & Hh & Hst & Hs & _); try done.
    + apply Hwf.
    + by apply wf_base_NoDup.
    + intros p Hp. by apply (wf_all_params w p Hwf), wf_base.
    + intros p Hp. by apply (wf_all_params w p Hwf), wf_base.
    + exists w'. split_and!; try done.
      intros p. unfold data_of. by rewrite Hh, Hs.
  - destruct (write_grads_wf dl l w Hwf Hleaves) as (w' & E & _ & _ & _ & Hg & _); [lia|].
    by exists w'.
Qed.

(** C9: [Learner.parameters] returns the parameters of [net] and none of
    [net_pi]; the Adam optimizer [MetaLearner.__init__] builds holds exactly
    these; and on either exit of [write_grads] the hooks of every parameter
    of [net_pi] are as before the call, that is, none. *)
Theorem C9_only_base_parameters :
  (∀ w, Learner_parameters w = (w, Ok (parameters (net w))))
  ∧ (∀ init arch lr n, resettable arch →
       let w := MetaLearner_init init arch lr n in
       adam_params w = parameters (net w)
       ∧ ∀ q, q ∈ parameters (net_pi w) → (q ∉ parameters (net w)) ∧ (q ∉ adam_params w))
  ∧ (∀ w dl sum q, wf w → q ∈ parameters (net_pi w) →
       (q ∉ parameters (net w)) ∧ (q ∉ adam_params w)
       ∧ hooks_of (write_grads dl sum w).1 q = []).
Proof.
  assert (Hdis : ∀ w q, wf w → q ∈ parameters (net_pi w) →
            (q ∉ parameters (net w)) ∧ (q ∉ adam_params w)).
  { intros w q Hwf Hq.
    assert (q ∉ parameters (net w)).
    { intros Hb. by destruct (wf_base_working w q q Hwf Hb Hq). }
    split; [done|]. by replace (adam_params w) with (parameters (net w)) by (symmetry; apply Hwf). }
  split_and!.
  - done.
  - intros init arch lr n Hr w.
    destruct (MetaLearner_init_spec init arch lr n Hr) as (Hwf & Ha & _).
    split; [exact Ha|]. intros q Hq. by apply Hdis.
  - intros w dl sum q Hwf Hq. destruct (Hdis w q Hwf Hq) as [Hnb Hna].
    split_and!; [done|done|].
    destruct (write_grads_exit dl sum w Hwf) as (w' & r & E & Hout & _).
    rewrite E. simpl. rewrite Hout by done.
    by apply (wf_all_params w q Hwf), wf_working.
Qed.

(** C2: for a batch of [k >= 1] episodes, the episode loop of [forward]
    ends with [sum_grads_pi] holding, at every parameter position, the sum
    (added in episode order, starting from the first episode's vector) of the
    entries of the [k] per-episode gradient vectors at that position; the
    [k] vectors have the same length. *)
Theorem C2_accumulated_gradient_is_elementwise_sum sx sy qx qy w :
  wf w → shaped sx sy qx qy → 0 < length sy →
  let run := episodes_run (cast_inputs sx) sy (cast_inputs qx) qy (seq 0 (length sy)) w in
  ∃ g1 gs s rocs losses,
    (λ r, r.1.2) <$> run.2 = g1 :: gs
    ∧ length (g1 :: gs) = length sy
    ∧ (∀ g, g ∈ gs → length g = length g1)
    ∧ foldM (train_episode (cast_inputs sx) sy (cast_inputs qx) qy)
        (None, [], []) (seq 0 (length sy)) w
      = (run.1, Ok (Some s, rocs, losses))
    ∧ length s = length g1
    ∧ ∀ i, i < length g1 → s !!! i = foldl torch_add (g1 !!! i) (column i gs).
Proof.
  intros Hwf Hsh Hk run.
  assert (Hsl : ∀ i, i ∈ seq 0 (length sy) →
            sliceable (cast_inputs sx) sy (cast_inputs qx) qy i).
  { intros i Hi%elem_of_seq. apply shaped_sliceable; [done|lia]. }
  destruct (episodes_run_spec _ _ _ _ _ w Hwf Hsl) as (_ & _ & Hlen & Hall).
  fold run in Hlen, Hall. rewrite length_seq in Hlen.
  pose proof (train_loop_run _ _ _ _ _ None [] [] w Hwf Hsl) as E.
  cbn zeta in E. fold run in E.
  destruct (run.2) as [|r rs] eqn:Hrun; [simpl in Hlen; lia|].
  assert (Hsame : ∀ g, g ∈ (λ r, r.1.2) <$> rs → length g = length r.1.2).
  { intros g (r' & -> & Hr')%list_elem_of_fmap.
    apply Forall_cons in Hall as [-> Hall].
    by apply (proj1 (Forall_forall _ _) Hall). }
  destruct (accumulate_sum r.1.2 ((λ r, r.1.2) <$> rs) Hsame) as (s & Es & Hls & Hs).
  exists r.1.2, ((λ r, r.1.2) <$> rs), s. eexists _, _. split_and!; try done.
  - simpl. rewrite length_fmap. by simpl in Hlen.
  - rewrite E. rewrite fmap_cons, Es. reflexivity.
Qed.


(** C4: [Learner.forward] called with [num_updates = n] returns; after the
    reset, the values of the working parameters go through exactly [n] steps,
    each being [p - 0.001 * g] at every position, with [g] the gradient of
    the support-set loss at the current working values and no state carried
    from one step to the next; every base parameter object and its value are
    as before the call. *)
Theorem C4_inner_loop_is_plain_sgd support query (n : nat) w :
  wf w →
  ∃ w' r, Learner_forward support query (Z.of_nat n) w = (w', Ok r)
    ∧ values w' (parameters (net_pi w))
      = Nat.iter n (sgd_pure support) (values (update_pi w).1 (parameters (net_pi w)))
    ∧ (∀ theta, sgd_pure support theta
         = imap (λ i x, add_alpha x (net_grad theta support i) (- (1 # 1000))%Q) theta)
    ∧ ∀ p, p ∈ parameters (net w) →
        params w' !!! p = params w !!! p ∧ data_of w' p = data_of w p.
Proof.
  intros Hwf.
  destruct (Learner_forward_spec support query (Z.of_nat n) w Hwf)
    as (w' & loss & E & _ & Hfr & Hv & _).
  eexists w', _. split_and!.
  - exact E.
  - rewrite Hv. unfold adapted. by rewrite Nat2Z.id.
  - done.
  - apply Hfr.
Qed.


(** C7: a call of [pred] on a batch returns, by the same episode loop as
    [forward], the list of the per-episode losses and, for each of the six
    metrics, [np.mean] of its per-episode values; every base parameter object
    and its value, the Adam state, the hook tables and the hook counter are
    the same before and after the call. *)
Theorem C7_pred_leaves_base_unchanged sx sy qx qy w :
  wf w → shaped sx sy qx qy →
  let run := episodes_run (cast_inputs sx) sy (cast_inputs qx) qy (seq 0 (length sy)) w in
  ∃ w',
    MetaLearner_pred sx sy qx qy w
    = (w', Ok ((λ r, r.1.1) <$> run.2,
               np_mean ((λ r, acc r.2) <$> run.2),
               np_mean ((λ r, pre_score r.2) <$> run.2),
               np_mean ((λ r, recall_score r.2) <$> run.2),
               np_mean ((λ r, mcc_score r.2) <$> run.2),
               np_mean ((λ r, roc_score r.2) <$> run.2),
               np_mean ((λ r, f1_score r.2) <$> run.2)))
    ∧ length run.2 = length sy
    ∧ (∀ p, p ∈ parameters (net w) →
         params w' !!! p = params w !!! p ∧ data_of w' p = data_of w p)
    ∧ adam_state w' = adam_state w
    ∧ next_hook w' = next_hook w
    ∧ (∀ q, hooks_of w' q = hooks_of w q).
Proof.
  intros Hwf Hsh run.
  destruct (MetaLearner_pred_spec sx sy qx qy w Hwf Hsh) as (E & _ & Hfr & Hlen).
  fold run in E, Hfr, Hlen.
  destruct Hfr as (_&_&_&_&Hst&Hnh&_&_&_&Hh&Hb).
  by exists run.1.
Qed.

(** C10: [update_pi] writes the [.data] of the parameter objects of
    [net_pi] and replaces none of them: after any number of resets [net_pi]
    holds the same parameter objects, they are the ones the SGD optimizer was
    built on, and one inner step moves their values by the SGD rule. *)
Theorem C10_reset_keeps_parameter_identities (k : nat) a w :
  wf w →
  let wk := Nat.iter k (λ w, (update_pi w).1) w in
  parameters (net_pi wk) = parameters (net_pi w)
  ∧ sgd_params wk = sgd_params w
  ∧ sgd_params wk = parameters (net_pi wk)
  ∧ length (params wk) = length (params w)
  ∧ ∃ w', inner_update a wk = (w', Ok tt)
      ∧ values w' (sgd_params w) = sgd_pure a (values wk (sgd_params w)).
Proof.
  intros Hwf wk.
  destruct (update_pi_iter k w Hwf) as [Hwfk Hfr]. fold wk in Hwfk, Hfr.
  destruct Hfr as (_&Hnp&Hsg&_&_&_&_&_&Hlen&_).
  assert (Hs : sgd_params w = parameters (net_pi w)) by apply Hwf.
  split_and!.
  - by rewrite Hnp.
  - done.
  - apply Hwfk.
  - done.
  - destruct (inner_update_frame a wk Hwfk) as (w' & E & _ & _ & Hv).
    exists w'. split; [done|]. rewrite Hs, <- Hnp. exact Hv.
Qed.

(** * Further properties of the code *)

(** ** Batches that cannot be sliced *)

Lemma slice_result_exn x y i e : slice_result x y i = Raise e → e = IndexError.
Proof.
  unfold slice_result.
  destruct (x_atom x !! i), (x_bond x !! i), (x_atom_index x !! i),
    (x_bond_index x !! i), (x_mask x !! i), (y !! i); congruence.
Qed.

Lemma slice_result_no_label x i : slice_result x [] i = Raise IndexError.
Proof.
  unfold slice_result.
  by destruct (x_atom x !! i), (x_bond x !! i), (x_atom_index x !! i),
    (x_bond_index x !! i), (x_mask x !! i).
Qed.

Lemma episode_unsliceable sx sy qx qy i w :
  ¬ sliceable sx sy qx qy i → episode sx sy qx qy i w = (w, Raise IndexError).
Proof.
  intros Hns. unfold episode.
  destruct (slice_result sx sy i) as [sa|e] eqn:Hs.
  - rewrite (bind_ok _ _ w w sa) by (by rewrite slice_run, Hs).
    destruct (slice_result qx qy i) as [qa|e] eqn:Hq.
    + exfalso. apply Hns. by exists sa, qa.
    + apply slice_result_exn in Hq as Heq. subst e.
      apply bind_raise. by rewrite slice_run, Hq.
  - apply slice_result_exn in Hs as Heq. subst e.
    apply bind_raise. by rewrite slice_run, Hs.
Qed.

Lemma foldM_app {A S} (f : S → A → M S) s l1 l2 w :
  foldM f s (l1 ++ l2) w = bind (foldM f s l1) (λ s', foldM f s' l2) w.
Proof.
  revert s w. induction l1 as [|a l1 IH]; intros s w; simpl; [done|].
  unfold bind in *. destruct (f s a w) as [w1 [s1|e]]; [apply IH|done].
Qed.

(** On an empty batch the two entry points differ.  [forward] skips the
    episode loop and raises [IndexError] at [support_y[0]], when it slices the
    input of the dummy loss; [pred] raises nothing and returns an empty list of
    losses and [np.mean] of an empty list for each metric.  Both leave the
    store as it was. *)
Theorem empty_batch_forward_raises_pred_returns sx qx qy w :
  MetaLearner_forward sx [] qx qy w = (w, Raise IndexError)
  ∧ MetaLearner_pred sx [] qx qy w
    = (w, Ok ([], np_mean [], np_mean [], np_mean [], np_mean [], np_mean [], np_mean [])).
Proof.
  split.
  - unfold MetaLearner_forward. cbn [length seq foldM].
    rewrite (bind_ok _ _ w w (None, [], [])) by reflexivity.
    apply bind_raise. by rewrite slice_run, slice_result_no_label.
  - reflexivity.
Qed.

(** [forward] on a batch whose episode [i] is the first that cannot be
    sliced (one of the twelve batched tensors has no entry [i]) raises
    [IndexError] in the episode loop: no hook is registered, no optimizer step
    is applied, every base parameter is as before. *)
Theorem forward_unsliceable_episode_raises sx sy qx qy i w :
  wf w → i < length sy →
  (∀ j, j < i → sliceable (cast_inputs sx) sy (cast_inputs qx) qy j) →
  ¬ sliceable (cast_inputs sx) sy (cast_inputs qx) qy i →
  ∃ w', MetaLearner_forward sx sy qx qy w = (w', Raise IndexError)
    ∧ wf w'
    ∧ (∀ p, p ∈ parameters (net w) →
         params w' !!! p = params w !!! p ∧ data_of w' p = data_of w p)
    ∧ adam_state w' = adam_state w
    ∧ next_hook w' = next_hook w
    ∧ (∀ q, hooks_of w' q = hooks_of w q).
Proof.
  intros Hwf Hi Hpre Hns.
  assert (Hsl : ∀ j, j ∈ seq 0 i →
            sliceable (cast_inputs sx) sy (cast_inputs qx) qy j).
  { intros j Hj%elem_of_seq. apply Hpre. lia. }
  destruct (episodes_run_spec _ _ _ _ _ w Hwf Hsl) as (Hwf1 & Hfr & _).
  pose proof (train_loop_run _ _ _ _ _ None [] [] w Hwf Hsl) as E. cbn zeta in E.
  set (run := episodes_run (cast_inputs sx) sy (cast_inputs qx) qy (seq 0 i) w) in *.
  exists run.1. split_and!; try done; try apply Hfr.
  unfold MetaLearner_forward.
  assert (Hseq : seq 0 (length sy) = seq 0 i ++ i :: seq (S i) (length sy - S i)).
  { replace (length sy) with (i + S (length sy - S i)) at 1 by lia.
    by rewrite seq_app. }
  rewrite Hseq.
  apply bind_raise. rewrite foldM_app.
  rewrite (bind_ok _ _ _ _ _ E). cbn [foldM].
  apply bind_raise. rewrite train_episode_run.
  by rewrite episode_unsliceable.
Qed.

(** ** [write_grads] without accumulated gradients *)

(** [write_grads] called with [sum_grads_pi = None] on a network that has
    parameters: the first hook raises [TypeError] inside the backward pass, no
    optimizer step is applied and every base parameter keeps its hook. *)
Theorem write_grads_none_raises_TypeError dl w :
  wf w → (graph dl).*1 = parameters (net w) → parameters (net w) ≠ [] →
  ∃ w', write_grads dl None w = (w', Raise TypeError)
    ∧ heap w' = heap w
    ∧ adam_state w' = adam_state w
    ∧ (∀ p, data_of w' p = data_of w p)
    ∧ (∀ i p, parameters (net w) !! i = Some p →
         hooks_of w' p = [(next_hook w + i, closure None i)]).
Proof.
  intros Hwf Hleaves Hne. set (bps := parameters (net w)) in *.
  assert (Hadam : adam_params w = bps) by apply Hwf.
  assert (Hnd : NoDup bps) by (by apply wf_base_NoDup).
  assert (Hval : ∀ p, p ∈ bps → p < length (params w)).
  { intros p Hp. by apply (wf_all_params w p Hwf), wf_base. }
  assert (Hhk : ∀ p, p ∈ bps → hooks_of w p = []).
  { intros p Hp. by apply (wf_all_params w p Hwf), wf_base. }
  destruct (write_grads_prefix dl None w Hadam Hnd Hval)
    as (os2 & E & Hl2 & Hst2 & Hh2 & Ho2).
  fold bps in E, Hh2, Ho2. cbn zeta in *.
  set (w2 := set_params (λ _, os2) (set_next_hook (next_hook w + length bps) w)) in *.
  destruct dl as [v G]. simpl in Hleaves.
  destruct (backward_spec v G w2) as (os3 & r & E3 & Hl3 & Hs3 & Ho3 & _ & Hraise).
  assert (Hrun : ∀ p g, p ∈ bps → run_hooks (hooks_of w2 p) g = Raise TypeError).
  { intros p g [i Hi]%list_elem_of_lookup. destruct (Hh2 i p Hi) as [-> _].
    rewrite Hhk by (by eapply list_elem_of_lookup_2). reflexivity. }
  assert (Hleaf : ∀ p g, (p, g) ∈ G → p ∈ bps).
  { intros p g Hin. rewrite <- Hleaves. apply list_elem_of_fmap. by exists (p, g). }
  assert (Hst3 : ∀ q, storage (set_params (λ _, os3) w2) q = storage w q).
  { intros q. rewrite <- Hst2. unfold storage. simpl. by destruct (Hs3 q) as [-> _]. }
  rewrite (Hraise TypeError) in E3.
  - exists (set_params (λ _, os3) w2). split_and!; try done.
    + rewrite E. by rewrite (bind_raise _ _ _ _ _ E3).
    + intros p. unfold data_of. by rewrite Hst3.
    + intros i p Hi. unfold hooks_of at 1. simpl. destruct (Hs3 p) as [_ ->].
      change (p_hooks (params w2 !!! p)) with (hooks_of w2 p).
      destruct (Hh2 i p Hi) as [-> _].
      by rewrite Hhk by (by eapply list_elem_of_lookup_2).
  - destruct G as [|[p g] G]; [by rewrite <- Hleaves in Hne|].
    exists p, g. split; [by left|]. apply Hrun. apply (Hleaf p g). by left.
  - intros p g e Hin Hr. rewrite Hrun in Hr by (by eapply Hleaf). congruence.
Qed.

(** ** [Learner.forward] *)

Lemma sgd_pure_length a theta : length (sgd_pure a theta) = length theta.
Proof. unfold sgd_pure. by rewrite length_imap. Qed.

Lemma sgd_iter_length a n theta :
  length (Nat.iter n (sgd_pure a) theta) = length theta.
Proof. induction n as [|n IH]; simpl; [done|]. by rewrite sgd_pure_length. Qed.

(** What [Learner.forward] returns is computed on the query set at the
    adapted working parameters (the values after the reset and the inner
    steps on the support set): the loss, one gradient per working parameter,
    in the order of [net_pi.parameters()], and the six metrics; these adapted
    values are what the working network holds afterwards. *)
Theorem Learner_forward_returns_query_results support query n w :
  wf w →
  let theta := adapted support n w in
  ∃ w' loss,
    Learner_forward support query n w
    = (w', Ok (loss, grad_vector query theta, scores_of query theta))
    ∧ loss_value loss = net_loss theta query
    ∧ length (grad_vector query theta) = length (parameters (net_pi w))
    ∧ (∀ i, i < length (parameters (net_pi w)) →
         grad_vector query theta !! i = Some (net_grad theta query i))
    ∧ values w' (parameters (net_pi w)) = theta.
Proof.
  intros Hwf theta.
  destruct (Learner_forward_spec support query n w Hwf) as (w' & loss & E & _ & _ & Hv & Hl).
  fold theta in E, Hv, Hl.
  assert (Hlen : length theta = length (parameters (net_pi w))).
  { rewrite <- Hv. unfold values. by rewrite length_fmap. }
  exists w', loss. split_and!; try done.
  - unfold grad_vector. by rewrite length_imap.
  - intros i Hi. unfold grad_vector. rewrite list_lookup_imap.
    destruct (lookup_lt_is_Some_2 theta i) as [x ->]; [lia|]. done.
Qed.

(** [Learner.forward] with [num_updates <= 0]: [range(num_updates)] is
    empty, no inner step is made, and the gradient returned is the one at the
    working values the reset leaves. *)
Theorem Learner_forward_without_updates support query n w :
  wf w → (n ≤ 0)%Z →
  ∃ w' loss sc,
    Learner_forward support query n w
    = (w', Ok (loss, grad_vector query (values (update_pi w).1 (parameters (net_pi w))), sc))
    ∧ values w' (parameters (net_pi w)) = values (update_pi w).1 (parameters (net_pi w)).
Proof.
  intros Hwf Hn.
  destruct (Learner_forward_spec support query n w Hwf) as (w' & loss & E & _ & _ & Hv & _).
  unfold adapted in E, Hv. rewrite Z2Nat.nonpos in E, Hv by done. simpl in E, Hv.
  by eexists w', loss, _.
Qed.

(** ** [update_pi] *)

Lemma copy_loop_heap cps w :
  ∃ h', heap (foldl copy_world w cps) = heap w ++ h' ∧ length h' = length cps.
Proof.
  revert w. induction cps as [|sd cps IH]; intros w.
  - exists []. by rewrite app_nil_r.
  - destruct (IH (copy_world w sd)) as (h' & E & Hl).
    exists (data_of w sd.1 :: h'). simpl. rewrite E. simpl.
    split; [by rewrite <- app_assoc|by rewrite Hl].
Qed.

(** [update_pi] writes into no existing tensor: every storage that exists
    before the call holds the same value after it, and one new storage is
    allocated for each weight and bias it copies. *)
Theorem update_pi_allocates_fresh_storages w :
  wf w →
  ∃ w' h', update_pi w = (w', Ok tt)
    ∧ heap w' = heap w ++ h'
    ∧ length h' = length (copies w)
    ∧ ∀ l, l < length (heap w) → heap w' !!! l = heap w !!! l.
Proof.
  intros Hwf. rewrite update_pi_run by apply Hwf. fold (copies w).
  destruct (copy_loop_heap (copies w) w) as (h' & E & Hl).
  eexists _, h'. split_and!; try done.
  intros l Hlt. rewrite E. by apply lookup_total_app_l.
Qed.

(** A second [update_pi] right after a first changes the value of no
    parameter of either network. *)
Theorem update_pi_twice_same_values w :
  wf w →
  ∃ w1 w2, update_pi w = (w1, Ok tt) ∧ update_pi w1 = (w2, Ok tt)
    ∧ ∀ q, q ∈ all_params w → data_of w2 q = data_of w1 q.
Proof.
  intros Hwf.
  destruct (update_pi_spec w Hwf) as (os & h' & E & Hwf1 & Hlen & _ & Hout & Hcp).
  set (w1 := set_params (λ _, os) (set_heap (λ _, heap w ++ h') w)) in *.
  destruct (update_pi_frame w Hwf) as (w1' & E' & _ & Hfr).
  rewrite E in E'. injection E' as <-.
  destruct (update_pi_spec w1 Hwf1) as (os2 & h2 & E2 & _ & _ & _ & Hout2 & Hcp2).
  set (w2 := set_params (λ _, os2) (set_heap (λ _, heap w1 ++ h2) w1)) in *.
  exists w1, w2. split_and!; [done|done|].
  intros q Hq.
  assert (Hc : copies w1 = copies w) by reflexivity.
  destruct (decide (q ∈ (copies w1).*2)) as [Hin|Hnin].
  - apply list_elem_of_fmap in Hin as ([s d] & -> & Hsd). simpl.
    destruct (Hcp2 s d Hsd) as [_ Hv2]. rewrite Hc in Hsd.
    destruct (Hcp s d Hsd) as [_ Hv1].
    assert (Hs : s ∈ parameters (net w)).
    { eapply elem_of_sublist; [|apply (copies_fst_sublist (net w) (net_pi w))].
      apply list_elem_of_fmap. by exists (s, d). }
    destruct Hfr as (_&_&_&_&_&_&_&_&_&_&Hbase). destruct (Hbase s Hs) as [_ Hds].
    change (data_of w2 d) with ((heap w1 ++ h2) !!! p_data (os2 !!! d)).
    rewrite Hv2, Hds.
    change (data_of w1 d) with ((heap w ++ h') !!! p_data (os !!! d)).
    by rewrite Hv1.
  - change (data_of w2 q) with ((heap w1 ++ h2) !!! p_data (os2 !!! q)).
    rewrite (Hout2 q Hnin).
    apply lookup_total_app_l.
    apply (wf_all_params w1 q Hwf1). exact Hq.
Qed.

(** ** Networks made of copied classes only *)

Lemma copy_pairs_zip mf mt :
  same_shape mf mt →
  is_copied (kind mt) = true ∨ module_parameters mt = [] →
  copy_pairs (mf, mt) = zip (module_parameters mf) (module_parameters mt).
Proof.
  intros (_ & Hw & Hb & _) Hc. unfold copy_pairs, module_parameters in *. simpl.
  assert (Hn : ∀ A (x : A), ¬ is_Some (@None A)) by (intros A x [? ?]; done).
  destruct (weight mf) as [s|], (weight mt) as [d|];
    try (exfalso; by (apply (Hn _ 0), Hw; eexists) || by (apply (Hn _ 0), Hw; eexists));
    destruct (bias mf) as [bs|], (bias mt) as [bd|];
    try (exfalso; by (apply (Hn _ 0), Hb; eexists) || by (apply (Hn _ 0), Hb; eexists));
    destruct Hc as [->|Hc]; simpl in *; try done;
    by destruct (is_copied (kind mt)).
Qed.

Lemma copies_zip_parameters ms ms' :
  Forall2 same_shape ms ms' →
  Forall (λ m, is_copied (kind m) = true ∨ module_parameters m = []) ms' →
  zip ms ms' ≫= copy_pairs = zip (parameters ms) (parameters ms').
Proof.
  unfold parameters. induction 1 as [|mf mt ms ms' Hs _ IH]; intros Hall; [done|].
  apply Forall_cons in Hall as [Hc Hall].
  cbn [zip_with]. rewrite !bind_cons, IH by done.
  rewrite zip_with_app by (by apply same_shape_parameters).
  by rewrite copy_pairs_zip.
Qed.

Lemma update_pi_copies_base w :
  wf w → fully_reset w →
  values (update_pi w).1 (parameters (net_pi w)) = values w (parameters (net w)).
Proof.
  intros Hwf Hfull.
  destruct (update_pi_spec w Hwf) as (os & h' & E & _ & _ & _ & _ & Hcp).
  rewrite E. cbn [fst].
  set (w' := set_params (λ _, os) (set_heap (λ _, heap w ++ h') w)) in *.
  assert (Hz : copies w = zip (parameters (net w)) (parameters (net_pi w))).
  { apply copies_zip_parameters; [apply Hwf|exact Hfull]. }
  pose proof (wf_param_count w Hwf) as Hcount.
  unfold values. apply list_eq. intros i. rewrite !list_lookup_fmap.
  destruct (parameters (net_pi w) !! i) as [d|] eqn:Hd.
  - destruct (lookup_lt_is_Some_2 (parameters (net w)) i) as [s Hs].
    { rewrite Hcount. by eapply lookup_lt_Some. }
    rewrite Hs. simpl. f_equal.
    assert (Hin : (s, d) ∈ copies w).
    { rewrite Hz. apply list_elem_of_lookup. exists i.
      apply lookup_zip_with_Some. by exists s, d. }
    by destruct (Hcp s d Hin) as [_ ?].
  - rewrite lookup_ge_None_2; [done|]. rewrite Hcount. by apply lookup_ge_None_1.
Qed.

(** On a network whose parameters all belong to [Linear], [Conv2d] or
    [BatchNorm2d] modules, [update_pi] makes the working parameter vector
    equal to the base parameter vector, position by position. *)
Theorem update_pi_resets_whole_network w :
  wf w → fully_reset w →
  ∃ w', update_pi w = (w', Ok tt)
    ∧ values w' (parameters (net_pi w)) = values w (parameters (net w))
    ∧ values w' (parameters (net w)) = values w (parameters (net w)).
Proof.
  intros Hwf Hfull.
  pose proof (update_pi_copies_base w Hwf Hfull) as Hv.
  destruct (update_pi_frame w Hwf) as (w' & E & _ & Hfr).
  rewrite E in Hv. exists w'. split_and!; [done|done|].
  destruct Hfr as (_&_&_&_&_&_&_&_&_&_&Hbase).
  unfold values. apply list_fmap_ext. intros i p Hp. apply Hbase.
  by eapply list_elem_of_lookup_2.
Qed.

Lemma base_frame_values w0 w :
  base_frame w0 w →
  values w (parameters (net w)) = values w0 (parameters (net w0)).
Proof.
  intros (Hn&_&_&_&_&_&_&_&_&_&Hbase). rewrite Hn.
  unfold values. apply list_fmap_ext. intros i p Hp. apply Hbase.
  by eapply list_elem_of_lookup_2.
Qed.

Lemma episodes_run_values sx sy qx qy w0 idxs w :
  wf w → fully_reset w0 → base_frame w0 w →
  (∀ i, i ∈ idxs → sliceable sx sy qx qy i) →
  let rs := (episodes_run sx sy qx qy idxs w).2 in
  let es := episode_slices sx sy qx qy idxs in
  length es = length idxs
  ∧ (λ r, loss_value r.1.1) <$> rs = (λ e, net_loss (base_adapted e.1 w0) e.2) <$> es
  ∧ (λ r, r.1.2) <$> rs = (λ e, grad_vector e.2 (base_adapted e.1 w0)) <$> es
  ∧ (λ r, r.2) <$> rs = (λ e, scores_of e.2 (base_adapted e.1 w0)) <$> es.
Proof.
  intros Hwf Hfull. revert w Hwf. induction idxs as [|i idxs IH]; intros w Hwf Hfr Hsl.
  { done. }
  destruct (Hsl i) as (sa & qa & Hs & Hq); [by left|].
  destruct (Learner_forward_spec sa qa (num_updates w) w Hwf)
    as (w1 & loss & E & Hwf1 & Hf1 & _ & Hloss).
  assert (Hth : adapted sa (num_updates w) w = base_adapted sa w0).
  { unfold adapted, base_adapted. rewrite update_pi_copies_base.
    - rewrite (base_frame_values w0 w Hfr).
      by replace (num_updates w) with (num_updates w0) by (symmetry; apply Hfr).
    - done.
    - unfold fully_reset. by replace (net_pi w) with (net_pi w0) by (symmetry; apply Hfr). }
  rewrite Hth in E, Hloss.
  assert (Ee : episode sx sy qx qy i w
               = (w1, Ok (loss, grad_vector qa (base_adapted sa w0),
                          scores_of qa (base_adapted sa w0)))).
  { unfold episode. rewrite (bind_ok _ _ w w sa) by (by rewrite slice_run, Hs).
    rewrite (bind_ok _ _ w w qa) by (by rewrite slice_run, Hq).
    rewrite (bind_ok _ _ w w w) by reflexivity. exact E. }
  specialize (IH w1 Hwf1 (base_frame_trans _ _ _ Hfr Hf1)
                (λ j Hj, Hsl j (list_elem_of_further _ _ _ Hj))).
  cbn zeta in *. cbn [episodes_run]. rewrite Ee.
  unfold episode_slices in *. cbn [omap list_omap]. rewrite Hs, Hq.
  destruct (episodes_run sx sy qx qy idxs w1) as [w2 rs].
  cbn [fst snd] in *. destruct IH as (IH1 & IH2 & IH3 & IH4).
  rewrite !fmap_cons, IH2, IH3, IH4. cbn [length fst snd]. rewrite IH1, Hloss.
  done.
Qed.

(** On a network whose parameters all belong to copied classes every
    episode starts from the base parameters: [forward] returns, for episode
    [i], the query loss and the ROC score at the base values adapted by
    [num_updates] SGD steps on the support slice [i], whatever the earlier
    episodes did; and each base parameter makes one Adam step whose gradient
    is the sum over the episodes, in episode order, of the gradients of these
    query losses at the adapted values. *)
Theorem forward_is_first_order_meta_step sx sy qx qy w :
  wf w → fully_reset w → shaped sx sy qx qy → 0 < length sy →
  let es := episode_slices (cast_inputs sx) sy (cast_inputs qx) qy (seq 0 (length sy)) in
  ∃ w' losses rocs e1 rest,
    MetaLearner_forward sx sy qx qy w = (w', Ok (losses, rocs))
    ∧ es = e1 :: rest ∧ length es = length sy
    ∧ loss_value <$> losses = (λ e, net_loss (base_adapted e.1 w) e.2) <$> es
    ∧ rocs = (λ e, roc_score (scores_of e.2 (base_adapted e.1 w))) <$> es
    ∧ ∀ j p, parameters (net w) !! j = Some p →
        data_of w' p
        = (adam_result w p
             (foldl torch_add (net_grad (base_adapted e1.1 w) e1.2 j)
                ((λ e, net_grad (base_adapted e.1 w) e.2 j) <$> rest))).1.
Proof.
  intros Hwf Hfull Hsh Hk es.
  assert (Hsl : ∀ i, i ∈ seq 0 (length sy) →
            sliceable (cast_inputs sx) sy (cast_inputs qx) qy i).
  { intros i Hi%elem_of_seq. apply shaped_sliceable; [done|lia]. }
  destruct (episodes_run_values _ _ _ _ w _ w Hwf Hfull (base_frame_refl w) Hsl)
    as (Hlen & Hlo & Hgr & Hsc).
  fold es in Hlen, Hlo, Hgr, Hsc. rewrite length_seq in Hlen.
  destruct (MetaLearner_forward_spec sx sy qx qy w Hwf Hsh Hk)
    as (w' & sum & _ & _ & _ & Es & _ & _ & _ & _ & E & _ & _ & _ & Hg).
  cbn zeta in Es, E. rewrite Hgr in Es.
  destruct es as [|e1 rest] eqn:Hes; [simpl in Hlen; lia|].
  assert (Hth : ∀ sa, length (base_adapted sa w) = length (parameters (net w))).
  { intros sa. unfold base_adapted. rewrite sgd_iter_length.
    unfold values. by rewrite length_fmap. }
  assert (Hgl : ∀ e : Args Data * Args Data,
            length (grad_vector e.2 (base_adapted e.1 w)) = length (parameters (net w))).
  { intros e. unfold grad_vector. by rewrite length_imap. }
  destruct (accumulate_sum (grad_vector e1.2 (base_adapted e1.1 w))
              ((λ e, grad_vector e.2 (base_adapted e.1 w)) <$> rest))
    as (s & Es' & _ & Hs).
  { intros g (e & -> & _)%list_elem_of_fmap. by rewrite !Hgl. }
  rewrite fmap_cons in Es. rewrite Es in Es'. injection Es' as <-.
  eexists w', _, _, e1, rest. split_and!.
  - exact E.
  - done.
  - done.
  - rewrite <- Hlo. by rewrite <- list_fmap_compose.
  - etrans; [|by rewrite (list_fmap_compose
                         (λ e : Args Data * Args Data, scores_of e.2 (base_adapted e.1 w))
                         roc_score), <- Hsc, <- list_fmap_compose].
    done.
  - intros j p Hj. destruct (Hg j p Hj) as (_ & -> & _). do 2 f_equal.
    assert (Hjl : j < length (parameters (net w))) by (by eapply lookup_lt_Some).
    assert (Hnth : ∀ e : Args Data * Args Data,
              grad_vector e.2 (base_adapted e.1 w) !!! j
              = net_grad (base_adapted e.1 w) e.2 j).
    { intros e. apply list_lookup_total_correct. unfold grad_vector.
      rewrite list_lookup_imap.
      destruct (lookup_lt_is_Some_2 (base_adapted e.1 w) j) as [x ->]; [|done].
      by rewrite Hth. }
    rewrite Hs by (by rewrite Hgl). rewrite Hnth. f_equal.
    unfold column. rewrite <- list_fmap_compose. apply list_fmap_ext.
    intros i e _. apply Hnth.
Qed.

(** ** The meta-step and the working network *)

(** [write_grads] changes nothing of the working network: its parameter
    objects, their values and their (absent) Adam state are as before the
    call, and the module lists of both networks are the same. *)
Theorem write_grads_leaves_working_network dl l w :
  wf w → (graph dl).*1 = parameters (net w) →
  length (parameters (net w)) ≤ length l →
  ∃ w', write_grads dl (Some l) w = (w', Ok tt)
    ∧ net w' = net w ∧ net_pi w' = net_pi w
    ∧ ∀ q, q ∈ parameters (net_pi w) →
        params w' !!! q = params w !!! q
        ∧ data_of w' q = data_of w q
        ∧ adam_state w' !! q = adam_state w !! q.
Proof.
  intros Hwf Hleaves Hlen.
  destruct (write_grads_wf dl l w Hwf Hleaves Hlen)
    as (w' & E & _ & Hlay & _ & _ & Hout & Hheap).
  exists w'. split_and!; [done|apply Hlay|apply Hlay|].
  intros q Hq.
  assert (Hnb : q ∉ parameters (net w)).
  { intros Hb. by destruct (wf_base_working w q q Hwf Hb Hq). }
  destruct (Hout q Hnb) as [Hp Hs]. split_and!; [done| |done].
  unfold data_of, storage. rewrite Hp. apply Hheap.
  intros (p & Heq & Hp')%list_elem_of_fmap.
  destruct (wf_base_working w p q Hwf Hp' Hq) as [_ Hne]. by apply Hne.
Qed.

(** [forward] and [pred] keep the learner well formed and keep the module
    lists, so that a further call of either finds the state it needs. *)
Theorem meta_calls_keep_well_formed sx sy qx qy w :
  wf w → shaped sx sy qx qy →
  (0 < length sy →
   ∃ w' r, MetaLearner_forward sx sy qx qy w = (w', Ok r)
     ∧ wf w' ∧ net w' = net w ∧ net_pi w' = net_pi w)
  ∧ (∃ w' r, MetaLearner_pred sx sy qx qy w = (w', Ok r)
       ∧ wf w' ∧ net w' = net w ∧ net_pi w' = net_pi w).
Proof.
  intros Hwf Hsh. split.
  - intros Hk.
    destruct (MetaLearner_forward_spec sx sy qx qy w Hwf Hsh Hk)
      as (w' & sum & s0 & dl & pred & _ & _ & _ & _ & _ & E & Hwf' & Hfr & Hlay & _).
    destruct Hlay as (Hn & Hnp & _). destruct Hfr as (Hn' & Hnp' & _).
    eexists w', _. split_and!; [exact E|done| |].
    + by rewrite Hn.
    + by rewrite Hnp.
  - destruct (MetaLearner_pred_spec sx sy qx qy w Hwf Hsh) as (E & Hwf' & Hfr & _).
    eexists _, _. split_and!; [exact E|done|apply Hfr|apply Hfr].
Qed.

(** [pred] and [forward] called on the same state and batch see the same
    episodes: [pred] returns the losses [forward] returns, and its mean ROC
    score is [np.mean] of the ROC scores [forward] returns. *)
Theorem pred_reports_what_forward_sees sx sy qx qy w :
  wf w → shaped sx sy qx qy → 0 < length sy →
  ∃ w1 w2 losses rocs m_acc m_pre m_rec m_mcc m_f1,
    MetaLearner_forward sx sy qx qy w = (w1, Ok (losses, rocs))
    ∧ MetaLearner_pred sx sy qx qy w
      = (w2, Ok (losses, m_acc, m_pre, m_rec, m_mcc, np_mean rocs, m_f1))
    ∧ length losses = length sy ∧ length rocs = length sy.
Proof.
  intros Hwf Hsh Hk.
  destruct (MetaLearner_forward_spec sx sy qx qy w Hwf Hsh Hk)
    as (w' & sum & s0 & dl & pred & _ & _ & _ & _ & _ & E & _).
  destruct (MetaLearner_pred_spec sx sy qx qy w Hwf Hsh) as (E' & _ & _ & Hlen).
  cbn zeta in *. rewrite E, E'.
  eexists _, _, _, _, _, _, _, _, _. split_and!; try reflexivity.
  - by rewrite length_fmap.
  - by rewrite length_fmap.
Qed.

(** The input of the dummy forward pass does not matter: whatever sample
    the dummy loss is computed on, [write_grads] leaves the same gradient,
    the same value and the same Adam state on every base parameter. *)
Theorem dummy_input_is_irrelevant a a' l w :
  wf w → length (parameters (net w)) ≤ length l →
  ∃ w1 w2,
    ('(dl, _) ← net_forward a; write_grads dl (Some l)) w = (w1, Ok tt)
    ∧ ('(dl, _) ← net_forward a'; write_grads dl (Some l)) w = (w2, Ok tt)
    ∧ ∀ p, p ∈ parameters (net w) →
        grad_of w1 p = grad_of w2 p
        ∧ data_of w1 p = data_of w2 p
        ∧ adam_state w1 !! p = adam_state w2 !! p.
Proof.
  intros Hwf Hlen.
  assert (Hrun : ∀ b, ∃ w', ('(dl, _) ← net_forward b; write_grads dl (Some l)) w = (w', Ok tt)
            ∧ ∀ i p, parameters (net w) !! i = Some p →
                grad_of w' p = Some (l !!! i)
                ∧ data_of w' p = (adam_result w p (l !!! i)).1
                ∧ adam_state w' !! p = Some (adam_result w p (l !!! i)).2).
  { intros b.
    destruct (write_grads_wf
                (mkLoss _ (net_loss (values w (parameters (net w))) b)
                   (imap (λ i p, (p, net_grad (values w (parameters (net w))) b i))
                      (parameters (net w)))) l w Hwf)
      as (w' & E & _ & _ & _ & Hg & _); [apply fst_imap_pair|done|].
    exists w'. split; [|done].
    rewrite (bind_ok _ _ _ _ _ (net_forward_run b w)). exact E. }
  destruct (Hrun a) as (w1 & E1 & H1). destruct (Hrun a') as (w2 & E2 & H2).
  exists w1, w2. split_and!; [done|done|].
  intros p [i Hi]%list_elem_of_lookup.
  destruct (H1 i p Hi) as (-> & -> & ->). destruct (H2 i p Hi) as (-> & -> & ->). done.
Qed.

(** ** Accumulation of vectors of different lengths *)

Lemma foldl_min_le a (l : list nat) : foldl Nat.min a l ≤ a.
Proof.
  revert a. induction l as [|b l IH]; intros a; simpl; [done|].
  etrans; [apply IH|]. lia.
Qed.

Lemma accumulate_from_any s0 gs :
  ∃ s, foldl accumulate (Some s0) gs = Some s
    ∧ length s = foldl Nat.min (length s0) (length <$> gs)
    ∧ ∀ i, i < length s → s !!! i = foldl torch_add (s0 !!! i) (column i gs).
Proof.
  revert s0. induction gs as [|g gs IH]; intros s0.
  - exists s0. by split_and!.
  - assert (Hz : length (zip_with torch_add s0 g) = Nat.min (length s0) (length g))
      by apply length_zip_with.
    destruct (IH (zip_with torch_add s0 g)) as (s & E & Hl & Hs).
    exists s. split_and!.
    + exact E.
    + rewrite Hl, Hz. done.
    + intros i Hi. rewrite Hs by done. simpl. f_equal.
      assert (Hiz : i < Nat.min (length s0) (length g)).
      { rewrite <- Hz. eapply Nat.lt_le_trans; [exact Hi|]. rewrite Hl. apply foldl_min_le. }
      apply list_lookup_total_correct. rewrite lookup_zip_with.
      destruct (lookup_lt_is_Some_2 s0 i ltac:(lia)) as [a Ha].
      destruct (lookup_lt_is_Some_2 g i ltac:(lia)) as [b Hb].
      rewrite Ha, Hb. simpl.
      by rewrite (list_lookup_total_correct _ _ _ Ha), (list_lookup_total_correct _ _ _ Hb).
Qed.

(** The accumulation of [forward] never raises on gradient vectors of
    different lengths: [zip] cuts the running sum to the shorter of the two,
    so the sum over a batch has the length of its shortest vector, and holds
    at each of its positions the sum of the entries at that position. *)
Theorem accumulation_truncates_to_shortest g1 gs :
  ∃ s, foldl accumulate None (g1 :: gs) = Some s
    ∧ length s = foldl Nat.min (length g1) (length <$> gs)
    ∧ ∀ i, i < length s → s !!! i = foldl torch_add (g1 !!! i) (column i gs).
Proof. apply accumulate_from_any. Qed.

(** ** Construction *)

(** [MetaLearner.__init__] builds two networks of the same architecture
    that share no parameter object and no tensor storage; no Adam state and no
    hook exists yet. *)
Theorem init_builds_separate_networks init arch lr n :
  resettable arch →
  let w := MetaLearner_init init arch lr n in
  Forall2 built arch (net w) ∧ Forall2 built arch (net_pi w)
  ∧ length (parameters (net w)) = length (parameters (net_pi w))
  ∧ (∀ p q, p ∈ parameters (net w) → q ∈ parameters (net_pi w) →
       p ≠ q ∧ storage w p ≠ storage w q)
  ∧ adam_state w = ∅
  ∧ (∀ p, p ∈ all_params w → hooks_of w p = []).
Proof.
  intros Hr w.
  destruct (MetaLearner_init_spec init arch lr n Hr) as (Hwf & _ & _ & Hst & _ & _ & Hb & Hb').
  fold w in Hwf, Hst, Hb, Hb'. split_and!; try done.
  - by apply wf_param_count.
  - intros p q Hp Hq. by apply wf_base_working.
  - intros p Hp. by apply (wf_all_params w p Hwf).
Qed.

(** ** [update_pi] on a module without weight *)



End Proofs.

(** * The claims on the concrete backend *)

Lemma demo_world_wf : wf demo_world.
Proof. apply (bool_decide_unpack _). vm_compute. reflexivity. Qed.

Lemma demo_shaped : shaped demo_x demo_y demo_x demo_y.
Proof. unfold shaped. simpl. repeat split; lia. Qed.

Lemma demo_dummy_leaves : (graph demo_dummy).*1 = parameters (net demo_world).
Proof. vm_compute. reflexivity. Qed.

Lemma demo_arch_resettable : resettable demo_arch.
Proof. unfold resettable, demo_arch. repeat constructor; simpl; done. Qed.

Lemma C1_witness :
  ∃ w', write_grads demo_dummy (Some [7; 8; 9]%Q) demo_world = (w', Ok tt)
    ∧ ∀ i p, parameters (net demo_world) !! i = Some p →
        grad_of w' p = Some ([7; 8; 9]%Q !!! i)
        ∧ data_of w' p = (adam_result demo_world p ([7; 8; 9]%Q !!! i)).1
        ∧ adam_state w' !! p = Some (adam_result demo_world p ([7; 8; 9]%Q !!! i)).2.
Proof.
  apply (@C1_write_grads_substitutes_accumulated QTorch demo_dummy [7; 8; 9]%Q demo_world).
  - exact demo_world_wf.
  - exact demo_dummy_leaves.
  - vm_compute. lia.
Defined.

Lemma C2_witness :
  let run := episodes_run (cast_inputs demo_x) demo_y (cast_inputs demo_x) demo_y
               (seq 0 (length demo_y)) demo_world in
  ∃ g1 gs s rocs losses,
    (λ r, r.1.2) <$> run.2 = g1 :: gs
    ∧ length (g1 :: gs) = length demo_y
    ∧ (∀ g, g ∈ gs → length g = length g1)
    ∧ foldM (train_episode (cast_inputs demo_x) demo_y (cast_inputs demo_x) demo_y)
        (None, [], []) (seq 0 (length demo_y)) demo_world
      = (run.1, Ok (Some s, rocs, losses))
    ∧ length s = length g1
    ∧ ∀ i, i < length g1 → s !!! i = foldl torch_add (g1 !!! i) (column i gs).
Proof.
  apply (@C2_accumulated_gradient_is_elementwise_sum QTorch demo_x demo_y demo_x demo_y
           demo_world).
  - exact demo_world_wf.
  - exact demo_shaped.
  - simpl. lia.
Defined.


Lemma C4_witness :
  ∃ w' r, Learner_forward demo_args demo_args (Z.of_nat 2) demo_world = (w', Ok r)
    ∧ values w' (parameters (net_pi demo_world))
      = Nat.iter 2 (sgd_pure demo_args)
          (values (update_pi demo_world).1 (parameters (net_pi demo_world)))
    ∧ (∀ theta, sgd_pure demo_args theta
         = imap (λ i x, add_alpha x (net_grad theta demo_args i) (- (1 # 1000))%Q) theta)
    ∧ ∀ p, p ∈ parameters (net demo_world) →
        params w' !!! p = params demo_world !!! p ∧ data_of w' p = data_of demo_world p.
Proof.
  apply (@C4_inner_loop_is_plain_sgd QTorch demo_args demo_args 2 demo_world).
  exact demo_world_wf.
Defined.

(** C5, counterexample: on the well-formed [demo_world], [write_grads]
    called with an empty list of accumulated gradients leaves by the
    [IndexError] of the first hook, and the base parameter [0] still carries
    one hook: the hooks are not removed on this exit. *)
Lemma C5_hooks_left_after_exception :
  wf demo_world
  ∧ (write_grads demo_dummy (Some []) demo_world).2 = Raise IndexError
  ∧ 0 ∈ parameters (net demo_world)
  ∧ length (hooks_of (write_grads demo_dummy (Some []) demo_world).1 0) = 1
  ∧ ¬ (∀ p, p ∈ parameters (net demo_world) →
         hooks_of (write_grads demo_dummy (Some []) demo_world).1 p = []).
Proof.
  assert (Hin : 0 ∈ parameters (net demo_world)) by (vm_compute; left).
  assert (Hlen : length (hooks_of (write_grads demo_dummy (Some []) demo_world).1 0) = 1)
    by (vm_compute; reflexivity).
  split_and!.
  - exact demo_world_wf.
  - vm_compute. reflexivity.
  - exact Hin.
  - exact Hlen.
  - intros H. rewrite (H 0 Hin) in Hlen. discriminate Hlen.
Qed.

Lemma C5_witness :
  (∃ w' r, write_grads demo_dummy (Some [7; 8; 9]%Q) demo_world = (w', r)
     ∧ (r = Ok tt → ∀ p, p ∈ parameters (net demo_world) → hooks_of w' p = [])
     ∧ (r ≠ Ok tt → ∀ i p, parameters (net demo_world) !! i = Some p →
          hooks_of w' p = [(next_hook demo_world + i, closure (Some [7; 8; 9]%Q) i)]))
  ∧ ∃ w' r, MetaLearner_forward demo_x demo_y demo_x demo_y demo_world = (w', Ok r)
      ∧ ∀ p, p ∈ parameters (net w') → hooks_of w' p = [].
Proof.
  destruct (@C5_hooks_removed_on_return_only QTorch demo_dummy (Some [7; 8; 9]%Q)
              demo_world demo_world_wf) as [H1 H2].
  split; [exact H1|].
  apply (H2 demo_x demo_y demo_x demo_y demo_shaped). simpl. lia.
Defined.


Lemma C7_witness :
  let run := episodes_run (cast_inputs demo_x) demo_y (cast_inputs demo_x) demo_y
               (seq 0 (length demo_y)) demo_world in
  ∃ w',
    MetaLearner_pred demo_x demo_y demo_x demo_y demo_world
    = (w', Ok ((λ r, r.1.1) <$> run.2,
               np_mean ((λ r, acc r.2) <$> run.2),
               np_mean ((λ r, pre_score r.2) <$> run.2),
               np_mean ((λ r, recall_score r.2) <$> run.2),
               np_mean ((λ r, mcc_score r.2) <$> run.2),
               np_mean ((λ r, roc_score r.2) <$> run.2),
               np_mean ((λ r, f1_score r.2) <$> run.2)))
    ∧ length run.2 = length demo_y
    ∧ (∀ p, p ∈ parameters (net demo_world) →
         params w' !!! p = params demo_world !!! p ∧ data_of w' p = data_of demo_world p)
    ∧ adam_state w' = adam_state demo_world
    ∧ next_hook w' = next_hook demo_world
    ∧ (∀ q, hooks_of w' q = hooks_of demo_world q).
Proof.
  apply (@C7_pred_leaves_base_unchanged QTorch demo_x demo_y demo_x demo_y demo_world).
  - exact demo_world_wf.
  - exact demo_shaped.
Defined.

(** C8, counterexample: on the well-formed [demo_world], whose base network
    has three parameters, [write_grads] called with four accumulated gradients
    raises nothing and applies the Adam step: parameter [0] has made its first
    step and its value has changed. *)
Lemma C8_longer_vector_is_accepted :
  wf demo_world
  ∧ length (parameters (net demo_world)) = 3
  ∧ length [1; 2; 3; 4]%Q = 4
  ∧ (write_grads demo_dummy (Some [1; 2; 3; 4]%Q) demo_world).2 = Ok tt
  ∧ step <$> adam_state (write_grads demo_dummy (Some [1; 2; 3; 4]%Q) demo_world).1 !! 0
    = Some 1
  ∧ data_of demo_world 0 = 0%Q
  ∧ data_of (write_grads demo_dummy (Some [1; 2; 3; 4]%Q) demo_world).1 0 = (-1 # 100)%Q.
Proof.
  split_and!; try (vm_compute; reflexivity).
  exact demo_world_wf.
Qed.

Lemma C8_witness :
  (∃ w', write_grads demo_dummy (Some [1; 2]%Q) demo_world = (w', Raise IndexError)
     ∧ adam_state w' = adam_state demo_world
     ∧ heap w' = heap demo_world
     ∧ ∀ p, data_of w' p = data_of demo_world p)
  ∧ (∃ w', write_grads demo_dummy (Some [1; 2; 3; 4]%Q) demo_world = (w', Ok tt)
       ∧ ∀ i p, parameters (net demo_world) !! i = Some p →
           grad_of w' p = Some ([1; 2; 3; 4]%Q !!! i)
           ∧ data_of w' p = (adam_result demo_world p ([1; 2; 3; 4]%Q !!! i)).1
           ∧ adam_state w' !! p
             = Some (adam_result demo_world p ([1; 2; 3; 4]%Q !!! i)).2).
Proof.
  split.
  - apply (proj1 (@C8_length_mismatch QTorch demo_dummy [1; 2]%Q demo_world
                    demo_world_wf demo_dummy_leaves)).
    vm_compute. lia.
  - apply (proj2 (@C8_length_mismatch QTorch demo_dummy [1; 2; 3; 4]%Q demo_world
                    demo_world_wf demo_dummy_leaves)).
    vm_compute. lia.
Defined.

Lemma C9_witness :
  Learner_parameters demo_world = (demo_world, Ok [0; 1; 2])
  ∧ adam_params demo_world = [0; 1; 2]
  ∧ (3 ∉ parameters (net demo_world)) ∧ (3 ∉ adam_params demo_world)
  ∧ hooks_of (write_grads demo_dummy (Some [7; 8; 9]%Q) demo_world).1 3 = [].
Proof.
  destruct (@C9_only_base_parameters QTorch) as (H1 & H2 & H3).
  assert (Hin : 3 ∈ parameters (net_pi demo_world)) by (vm_compute; left).
  split_and!.
  - exact (H1 demo_world).
  - exact (proj1 (H2 (λ l, inject_Z (Z.of_nat l)) demo_arch (1 # 100)%Q 2%Z
                     demo_arch_resettable)).
  - exact (proj1 (H3 demo_world demo_dummy (Some [7; 8; 9]%Q) 3 demo_world_wf Hin)).
  - exact (proj1 (proj2 (H3 demo_world demo_dummy (Some [7; 8; 9]%Q) 3 demo_world_wf Hin))).
  - exact (proj2 (proj2 (H3 demo_world demo_dummy (Some [7; 8; 9]%Q) 3 demo_world_wf Hin))).
Defined.

Lemma C10_witness :
  let wk := Nat.iter 3 (λ w, (update_pi w).1) demo_world in
  parameters (net_pi wk) = parameters (net_pi demo_world)
  ∧ sgd_params wk = sgd_params demo_world
  ∧ sgd_params wk = parameters (net_pi wk)
  ∧ length (params wk) = length (params demo_world)
  ∧ ∃ w', inner_update demo_args wk = (w', Ok tt)
      ∧ values w' (sgd_params demo_world)
        = sgd_pure demo_args (values wk (sgd_params demo_world)).
Proof.
  apply (@C10_reset_keeps_parameter_identities QTorch 3 demo_args demo_world).
  exact demo_world_wf.
Defined.

(** * The further properties on the concrete backend *)

Lemma demo_linear_world_wf : wf demo_linear_world.
Proof. apply (bool_decide_unpack _). vm_compute. reflexivity. Qed.

Lemma demo_linear_world_fully_reset : fully_reset demo_linear_world.
Proof.
  unfold fully_reset. vm_compute.
  repeat (constructor; [(left; reflexivity) || (right; reflexivity)|]). constructor.
Qed.

Lemma forward_unsliceable_episode_raises_witness :
  ∃ w', MetaLearner_forward demo_x demo_y demo_x [1%Q] demo_world = (w', Raise IndexError)
    ∧ wf w'
    ∧ (∀ p, p ∈ parameters (net demo_world) →
         params w' !!! p = params demo_world !!! p ∧ data_of w' p = data_of demo_world p)
    ∧ adam_state w' = adam_state demo_world
    ∧ next_hook w' = next_hook demo_world
    ∧ (∀ q, hooks_of w' q = hooks_of demo_world q).
Proof.
  apply (@forward_unsliceable_episode_raises QTorch demo_x demo_y demo_x [1%Q] 1 demo_world).
  - exact demo_world_wf.
  - simpl. lia.
  - intros j Hj. assert (j = 0) as -> by lia.
    exists demo_args, demo_args. split; reflexivity.
  - intros (sa & qa & _ & H). vm_compute in H. discriminate H.
Defined.

Lemma write_grads_none_raises_TypeError_witness :
  ∃ w', write_grads demo_dummy None demo_world = (w', Raise TypeError)
    ∧ heap w' = heap demo_world
    ∧ adam_state w' = adam_state demo_world
    ∧ (∀ p, data_of w' p = data_of demo_world p)
    ∧ (∀ i p, parameters (net demo_world) !! i = Some p →
         hooks_of w' p = [(next_hook demo_world + i, closure None i)]).
Proof.
  apply (@write_grads_none_raises_TypeError QTorch demo_dummy demo_world).
  - exact demo_world_wf.
  - exact demo_dummy_leaves.
  - vm_compute. discriminate.
Defined.

Lemma Learner_forward_returns_query_results_witness :
  let theta := adapted demo_args 2 demo_world in
  ∃ w' loss,
    Learner_forward demo_args demo_args' 2 demo_world
    = (w', Ok (loss, grad_vector demo_args' theta, scores_of demo_args' theta))
    ∧ loss_value loss = net_loss theta demo_args'
    ∧ length (grad_vector demo_args' theta) = length (parameters (net_pi demo_world))
    ∧ (∀ i, i < length (parameters (net_pi demo_world)) →
         grad_vector demo_args' theta !! i = Some (net_grad theta demo_args' i))
    ∧ values w' (parameters (net_pi demo_world)) = theta.
Proof.
  apply (@Learner_forward_returns_query_results QTorch demo_args demo_args' 2 demo_world).
  exact demo_world_wf.
Defined.

Lemma Learner_forward_without_updates_witness :
  ∃ w' loss sc,
    Learner_forward demo_args demo_args' 0 demo_world
    = (w', Ok (loss,
               grad_vector demo_args'
                 (values (update_pi demo_world).1 (parameters (net_pi demo_world))), sc))
    ∧ values w' (parameters (net_pi demo_world))
      = values (update_pi demo_world).1 (parameters (net_pi demo_world)).
Proof.
  apply (@Learner_forward_without_updates QTorch demo_args demo_args' 0 demo_world).
  - exact demo_world_wf.
  - lia.
Defined.

Lemma update_pi_allocates_fresh_storages_witness :
  ∃ w' h', update_pi demo_world = (w', Ok tt)
    ∧ heap w' = heap demo_world ++ h'
    ∧ length h' = length (copies demo_world)
    ∧ ∀ l, l < length (heap demo_world) → heap w' !!! l = heap demo_world !!! l.
Proof.
  apply (@update_pi_allocates_fresh_storages QTorch demo_world). exact demo_world_wf.
Defined.

Lemma update_pi_twice_same_values_witness :
  ∃ w1 w2, update_pi demo_world = (w1, Ok tt) ∧ update_pi w1 = (w2, Ok tt)
    ∧ ∀ q, q ∈ all_params demo_world → data_of w2 q = data_of w1 q.
Proof.
  apply (@update_pi_twice_same_values QTorch demo_world). exact demo_world_wf.
Defined.

Lemma update_pi_resets_whole_network_witness :
  ∃ w', update_pi demo_linear_world = (w', Ok tt)
    ∧ values w' (parameters (net_pi demo_linear_world))
      = values demo_linear_world (parameters (net demo_linear_world))
    ∧ values w' (parameters (net demo_linear_world))
      = values demo_linear_world (parameters (net demo_linear_world)).
Proof.
  apply (@update_pi_resets_whole_network QTorch demo_linear_world).
  - exact demo_linear_world_wf.
  - exact demo_linear_world_fully_reset.
Defined.

Lemma forward_is_first_order_meta_step_witness :
  let w := demo_linear_world in
  let es := episode_slices (cast_inputs demo_x) demo_y (cast_inputs demo_x) demo_y
              (seq 0 (length demo_y)) in
  ∃ w' losses rocs e1 rest,
    MetaLearner_forward demo_x demo_y demo_x demo_y w = (w', Ok (losses, rocs))
    ∧ es = e1 :: rest ∧ length es = length demo_y
    ∧ loss_value <$> losses = (λ e, net_loss (base_adapted e.1 w) e.2) <$> es
    ∧ rocs = (λ e, roc_score (scores_of e.2 (base_adapted e.1 w))) <$> es
    ∧ ∀ j p, parameters (net w) !! j = Some p →
        data_of w' p
        = (adam_result w p
             (foldl torch_add (net_grad (base_adapted e1.1 w) e1.2 j)
                ((λ e, net_grad (base_adapted e.1 w) e.2 j) <$> rest))).1.
Proof.
  apply (@forward_is_first_order_meta_step QTorch demo_x demo_y demo_x demo_y
           demo_linear_world).
  - exact demo_linear_world_wf.
  - exact demo_linear_world_fully_reset.
  - exact demo_shaped.
  - simpl. lia.
Defined.

Lemma write_grads_leaves_working_network_witness :
  ∃ w', write_grads demo_dummy (Some [7; 8; 9]%Q) demo_world = (w', Ok tt)
    ∧ net w' = net demo_world ∧ net_pi w' = net_pi demo_world
    ∧ ∀ q, q ∈ parameters (net_pi demo_world) →
        params w' !!! q = params demo_world !!! q
        ∧ data_of w' q = data_of demo_world q
        ∧ adam_state w' !! q = adam_state demo_world !! q.
Proof.
  apply (@write_grads_leaves_working_network QTorch demo_dummy [7; 8; 9]%Q demo_world).
  - exact demo_world_wf.
  - exact demo_dummy_leaves.
  - vm_compute. lia.
Defined.

Lemma meta_calls_keep_well_formed_witness :
  (∃ w' r, MetaLearner_forward demo_x demo_y demo_x demo_y demo_world = (w', Ok r)
     ∧ wf w' ∧ net w' = net demo_world ∧ net_pi w' = net_pi demo_world)
  ∧ (∃ w' r, MetaLearner_pred demo_x demo_y demo_x demo_y demo_world = (w', Ok r)
       ∧ wf w' ∧ net w' = net demo_world ∧ net_pi w' = net_pi demo_world).
Proof.
  destruct (@meta_calls_keep_well_formed QTorch demo_x demo_y demo_x demo_y demo_world
              demo_world_wf demo_shaped) as [H1 H2].
  split; [|exact H2]. apply H1. simpl. lia.
Defined.

Lemma pred_reports_what_forward_sees_witness :
  ∃ w1 w2 losses rocs m_acc m_pre m_rec m_mcc m_f1,
    MetaLearner_forward demo_x demo_y demo_x demo_y demo_world = (w1, Ok (losses, rocs))
    ∧ MetaLearner_pred demo_x demo_y demo_x demo_y demo_world
      = (w2, Ok (losses, m_acc, m_pre, m_rec, m_mcc, np_mean rocs, m_f1))
    ∧ length losses = length demo_y ∧ length rocs = length demo_y.
Proof.
  apply (@pred_reports_what_forward_sees QTorch demo_x demo_y demo_x demo_y demo_world).
  - exact demo_world_wf.
  - exact demo_shaped.
  - simpl. lia.
Defined.

Lemma dummy_input_is_irrelevant_witness :
  ∃ w1 w2,
    (bind (net_forward demo_args) (λ '(dl, _), write_grads dl (Some [7; 8; 9]%Q)))
      demo_world = (w1, Ok tt)
    ∧ (bind (net_forward demo_args') (λ '(dl, _), write_grads dl (Some [7; 8; 9]%Q)))
        demo_world = (w2, Ok tt)
    ∧ ∀ p, p ∈ parameters (net demo_world) →
        grad_of w1 p = grad_of w2 p
        ∧ data_of w1 p = data_of w2 p
        ∧ adam_state w1 !! p = adam_state w2 !! p.
Proof.
  apply (@dummy_input_is_irrelevant QTorch demo_args demo_args' [7; 8; 9]%Q demo_world).
  - exact demo_world_wf.
  - vm_compute. lia.
Defined.

Lemma init_builds_separate_networks_witness :
  let w := demo_world in
  Forall2 built demo_arch (net w) ∧ Forall2 built demo_arch (net_pi w)
  ∧ length (parameters (net w)) = length (parameters (net_pi w))
  ∧ (∀ p q, p ∈ parameters (net w) → q ∈ parameters (net_pi w) →
       p ≠ q ∧ storage w p ≠ storage w q)
  ∧ adam_state w = ∅
  ∧ (∀ p, p ∈ all_params w → hooks_of w p = []).
Proof.
  apply (@init_builds_separate_networks QTorch (λ l, inject_Z (Z.of_nat l)) demo_arch
           (1 # 100)%Q 2%Z).
  exact demo_arch_resettable.
Defined.

